(** * STEP contact-matrix analyzer: a shallow embedding and its properties

    The development follows the Python sources
    [step_contact_analyzer.py], [utils.py] and [config.py].

    Conventions of the embedding:
    - Python [int] and the entries of integer numpy arrays are [Z]
      (the sums that occur are bounded by the square of the part count,
      far below the 64-bit range, so no wrap-around is written out);
    - Python [float] quantities (distances, the tolerance, density, the
      mean degree) are exact rationals [Q]: rounding and NaN are outside
      the model;
    - a call that may raise returns a [Py.result];  [try ... except
      Exception] is [Py.try_except];
    - [for x in range(a, b)] is [Py.for_ (Py.range a b)], threading the
      object the loop body mutates;
    - a 2-D numpy array is the list of its rows; an [nx.Graph] is its
      two dictionaries, as finite maps;
    - a [str] is a [string] of 8-bit characters; a text file is the
      string of its contents;
    - the geometry kernel and the STEP reader are parameters: every
      statement holds for all of their behaviours;
    - logging and printing have no influence on any value and are left
      out. *)

From Stdlib Require Import ZArith QArith Lia Ascii.
From stdpp Require Import base option list gmap strings pretty.

Local Open Scope Z_scope.

(** ** Python: exceptions, loops, indexing *)

Module Py.

Inductive exn : Type :=
| ValueError (msg : string)
| IndexError
| RuntimeError (msg : string)
| CsvError (msg : string).

Inductive result (A : Type) : Type :=
| Return (a : A)
| Raise (e : exn).
Arguments Return {A} a.
Arguments Raise {A} e.

Definition bind {A B} (m : result A) (k : A -> result B) : result B :=
  match m with
  | Return a => k a
  | Raise e => Raise e
  end.

(** [try: body except Exception: handler] *)
Definition try_except {A} (body : result A) (handler : exn -> result A)
  : result A :=
  match body with
  | Return a => Return a
  | Raise e => handler e
  end.

Definition range (lo hi : nat) : list nat := seq lo (hi - lo).

(** [for x in xs: s = body x s], stopping at the first exception. *)
Fixpoint for_ {A S} (xs : list A) (body : A -> S -> result S) (s : S)
  : result S :=
  match xs with
  | [] => Return s
  | x :: xs' => bind (body x s) (for_ xs' body)
  end.

(** [[f(x) for x in xs]], stopping at the first exception. *)
Fixpoint list_comp {A B} (f : A -> result B) (xs : list A)
  : result (list B) :=
  match xs with
  | [] => Return []
  | x :: xs' =>
      bind (f x) (fun y => bind (list_comp f xs') (fun ys => Return (y :: ys)))
  end.

(** [enumerate(l)] *)
Definition enumerate {A} (l : list A) : list (nat * A) := imap pair l.

(** [l[i]] on a Python list, for a non-negative index. *)
Definition getitem {A} (l : list A) (i : nat) : result A :=
  match l !! i with
  | Some a => Return a
  | None => Raise IndexError
  end.

End Py.

#[global] Instance result_bind : MBind Py.result :=
  fun A B k m => Py.bind m k.

(** ** numpy: integer matrices *)

Module np.

Abbreviation ndarray := (list (list Z)).

(** [np.zeros((n, m), dtype=int)] *)
Definition zeros (n m : nat) : ndarray := replicate n (replicate m 0).

(** [a.shape[0]] *)
Definition shape0 (a : ndarray) : nat := length a.

(** [a[i, j]] for non-negative indices. *)
Definition getitem2 (a : ndarray) (i j : nat) : Py.result Z :=
  row ← Py.getitem a i; Py.getitem row j.

(** [a[i, j] = v] for non-negative indices. *)
Definition setitem2 (a : ndarray) (i j : nat) (v : Z) : Py.result ndarray :=
  match a !! i with
  | Some row =>
      if decide (j < length row)%nat
      then Py.Return (<[i := <[j := v]> row]> a)
      else Py.Raise Py.IndexError
  | None => Py.Raise Py.IndexError
  end.

(** [np.fill_diagonal(a, v)] on a 2-D array: [a[k, k] = v] for every
    [k] below both dimensions. *)
Definition fill_diagonal (a : ndarray) (v : Z) : ndarray :=
  imap (fun k row => <[k := v]> row) a.

Definition sum1 (row : list Z) : Z := foldr Z.add 0 row.

(** [np.sum(a)] *)
Definition sum (a : ndarray) : Z := sum1 (map sum1 a).

(** [np.sum(a, axis=1)] *)
Definition sum_axis1 (a : ndarray) : list Z := map sum1 a.

(** [np.max(v)]: a zero-size array has no maximum. *)
Definition max (v : list Z) : Py.result Z :=
  match v with
  | [] => Py.Raise (Py.ValueError
            "zero-size array to reduction operation maximum which has no identity")
  | x :: v' => Py.Return (foldl Z.max x v')
  end.

(** [np.min(v)] *)
Definition min (v : list Z) : Py.result Z :=
  match v with
  | [] => Py.Raise (Py.ValueError
            "zero-size array to reduction operation minimum which has no identity")
  | x :: v' => Py.Return (foldl Z.min x v')
  end.

(** [np.mean(v)]; [None] stands for the not-a-number numpy answers
    for a zero-size array. *)
Definition mean (v : list Z) : option Q :=
  match v with
  | [] => None
  | _ :: _ => Some (sum1 v # Pos.of_nat (length v))
  end.

(** Entry [(i, j)] read as a total function, 0 outside the array;
    used in statements only. *)
Definition entry (a : ndarray) (i j : nat) : Z :=
  default 0 (a !! i ≫= (.!! j)).

(** An [n] by [n] array. *)
Definition square (n : nat) (a : ndarray) : Prop :=
  length a = n ∧ ∀ i row, a !! i = Some row → length row = n.

End np.

(** ** networkx: the part of [nx.Graph] the analyzer uses *)

Module nx.

(** [_node] maps a node to its attribute dictionary, [_adj] maps a
    node to the set of its neighbours (edge attributes are never set). *)
Record Graph : Type := {
  _node : gmap nat (gmap string string);
  _adj : gmap nat (gset nat)
}.

(** [nx.Graph()] *)
Definition empty : Graph := {| _node := ∅; _adj := ∅ |}.

(** [G.add_node(n, name=name)] *)
Definition add_node (G : Graph) (n : nat) (name : string) : Graph :=
  match _node G !! n with
  | None =>
      {| _node := <[n := {["name" := name]}]> (_node G);
         _adj := <[n := ∅]> (_adj G) |}
  | Some attr_dict =>
      {| _node := <[n := <["name" := name]> attr_dict]> (_node G);
         _adj := _adj G |}
  end.

(** The start of [add_edge]: a node not yet in the graph is created
    with empty attributes. *)
Definition touch (G : Graph) (u : nat) : Graph :=
  match _node G !! u with
  | None => {| _node := <[u := ∅]> (_node G); _adj := <[u := ∅]> (_adj G) |}
  | Some _ => G
  end.

Definition neighbours (G : Graph) (u : nat) : gset nat :=
  default ∅ (_adj G !! u).

(** [G.add_edge(u, v)] *)
Definition add_edge (G : Graph) (u v : nat) : Graph :=
  let G1 := touch (touch G u) v in
  let adj1 := <[u := {[v]} ∪ neighbours G1 u]> (_adj G1) in
  let adj2 := <[v := {[u]} ∪ default ∅ (adj1 !! v)]> adj1 in
  {| _node := _node G1; _adj := adj2 |}.

(** [G.has_edge(u, v)] *)
Definition has_edge (G : Graph) (u v : nat) : bool :=
  bool_decide (v ∈ neighbours G u).

(** [G.number_of_nodes()] *)
Definition number_of_nodes (G : Graph) : nat := size (_node G).

(** [G.degree(u)]: a self-loop counts twice. *)
Definition degree (G : Graph) (u : nat) : nat :=
  (size (neighbours G u)
   + if bool_decide (u ∈ neighbours G u) then 1 else 0)%nat.

(** [G.number_of_edges()]: half the sum of the degrees. *)
Definition number_of_edges (G : Graph) : nat :=
  (foldr Nat.add 0 (map (degree G) (elements (dom (_adj G)))) / 2)%nat.

End nx.

(** ** The analyzer ([step_contact_analyzer.py]) *)

(** What [BRepExtrema_DistShapeShape] answers once [Perform] has run. *)
Record DistShapeShape : Type := {
  IsDone : bool;
  Value : Q
}.

(** What a fresh [STEPControl_Reader] does with a file: the status
    [ReadFile] returns; the shape [OneShape()] returns after
    [TransferRoots()], given by the solids a [TopExp_Explorer] visits
    in it, in visiting order; and the exception the explorer raises
    after the last of them, if it raises one. *)
Record STEPControl_Reader {Solid : Type} : Type := {
  ReadFile : Py.result Z;
  OneShape : Py.result (list Solid);
  Explorer_raises : option Py.exn
}.
Arguments STEPControl_Reader : clear implicits.

Section Analyzer.

(** Solids are opaque handles owned by the geometry kernel. *)
Context {Solid : Type}.

(** The geometry kernel: for two solids, the calculator obtained by
    [LoadS1], [LoadS2], [Perform]; [Py.Raise] when any call on the
    calculator raises. *)
Variable BRepExtrema : Solid -> Solid -> Py.result DistShapeShape.

(** The file system seen through the STEP reader. *)
Variable STEPControl : string -> STEPControl_Reader Solid.

Record STEPContactAnalyzer : Type := {
  tolerance : Q;
  parts : list Solid;
  contact_matrix : option np.ndarray;
  part_names : list string
}.

(** [STEPContactAnalyzer.__init__] *)
Definition init (tol : Q) : STEPContactAnalyzer :=
  {| tolerance := tol; parts := []; contact_matrix := None;
     part_names := [] |}.

(** The body of the [try] block of [_are_parts_in_contact]. *)
Definition are_parts_in_contact_body (self : STEPContactAnalyzer)
    (part1 part2 : Solid) : Py.result bool :=
  distance_calculator ← BRepExtrema part1 part2;
  if IsDone distance_calculator
  then
    let min_distance := Value distance_calculator in
    Py.Return (Qle_bool min_distance (tolerance self))
  else Py.Return false.

Definition _are_parts_in_contact (self : STEPContactAnalyzer)
    (part1 part2 : Solid) : Py.result bool :=
  Py.try_except (are_parts_in_contact_body self part1 part2)
    (fun e => Py.Return false).

(** The body of the inner loop of [compute_contact_matrix], acting on
    the array [self.contact_matrix] refers to. *)
Definition contact_step (self : STEPContactAnalyzer) (i j : nat)
    (m : np.ndarray) : Py.result np.ndarray :=
  part_i ← Py.getitem (parts self) i;
  part_j ← Py.getitem (parts self) j;
  c ← _are_parts_in_contact self part_i part_j;
  if c : bool
  then m' ← np.setitem2 m i j 1; np.setitem2 m' j i 1
  else Py.Return m.

(** [compute_contact_matrix]: the returned matrix and the analyzer
    with [contact_matrix] set to it. *)
Definition compute_contact_matrix (self : STEPContactAnalyzer)
  : Py.result (np.ndarray * STEPContactAnalyzer) :=
  let n_parts := length (parts self) in
  let m0 := np.zeros n_parts n_parts in
  m1 ← Py.for_ (Py.range 0 n_parts) (fun i m =>
         Py.for_ (Py.range (i + 1) n_parts) (contact_step self i) m) m0;
  let m2 := np.fill_diagonal m1 1 in
  Py.Return (m2, {| tolerance := tolerance self; parts := parts self;
                    contact_matrix := Some m2;
                    part_names := part_names self |}).

(** The [while explorer.More()] loop of [load_step_file]:
    [explorer] is what remains to be visited, [Current()] its head,
    [Next()] moves to its tail. *)
Fixpoint explore (explorer : list Solid) (part_index : nat)
    (self : STEPContactAnalyzer) : STEPContactAnalyzer :=
  match explorer with
  | [] => self
  | solid :: explorer' =>
      explore explorer' (part_index + 1)
        {| tolerance := tolerance self;
           parts := parts self ++ [solid];
           contact_matrix := contact_matrix self;
           part_names := part_names self ++ ["Part_" +:+ pretty part_index] |}
  end.

(** The body of the [try] block of [load_step_file]: how it ends, and
    the analyzer at that point (what was assigned before an exception
    stays assigned). *)
Definition load_step_file_body (self : STEPContactAnalyzer)
    (file_path : string) : Py.result bool * STEPContactAnalyzer :=
  let step_reader := STEPControl file_path in
  match ReadFile step_reader with
  | Py.Raise e => (Py.Raise e, self)
  | Py.Return status =>
      if negb (status =? 1)
      then (Py.Return false, self)
      else
        match OneShape step_reader with
        | Py.Raise e => (Py.Raise e, self)
        | Py.Return shape =>
            let self1 := {| tolerance := tolerance self; parts := [];
                            contact_matrix := contact_matrix self;
                            part_names := [] |} in
            let self2 := explore shape 0 self1 in
            match Explorer_raises step_reader with
            | Some e => (Py.Raise e, self2)
            | None => (Py.Return true, self2)
            end
        end
  end.

(** [load_step_file]: the returned flag and the analyzer afterwards;
    [except Exception] turns an exception into [False]. *)
Definition load_step_file (self : STEPContactAnalyzer)
    (file_path : string) : bool * STEPContactAnalyzer :=
  let '(outcome, self') := load_step_file_body self file_path in
  match outcome with
  | Py.Return flag => (flag, self')
  | Py.Raise e => (false, self')
  end.

(** The body of the inner loop of [get_contact_graph]. *)
Definition graph_step (cm : np.ndarray) (i j : nat) (G : nx.Graph)
  : Py.result nx.Graph :=
  x ← np.getitem2 cm i j;
  if x =? 1 then Py.Return (nx.add_edge G i j) else Py.Return G.

Definition get_contact_graph (self : STEPContactAnalyzer)
  : Py.result nx.Graph :=
  match contact_matrix self with
  | None =>
      Py.Raise (Py.ValueError
        "Contact matrix not computed. Call compute_contact_matrix() first.")
  | Some cm =>
      let G0 :=
        foldl (fun G '(i, name) => nx.add_node G i name) nx.empty
          (Py.enumerate (part_names self)) in
      let n_parts := length (parts self) in
      Py.for_ (Py.range 0 n_parts) (fun i G =>
        Py.for_ (Py.range (i + 1) n_parts) (graph_step cm i) G) G0
  end.

(** The two figures [print_contact_summary] prints after the part
    count: the total contacts, and the density; [None] when nothing
    was computed.  The density is a float division by
    [n_parts * (n_parts - 1) / 2], which is [0.0] for fewer than two
    parts: numpy then answers a non-number, here [None]. *)
Definition print_contact_summary_figures (self : STEPContactAnalyzer)
  : option (Z * option Q) :=
  match contact_matrix self with
  | None => None
  | Some cm =>
      let n_parts := Z.of_nat (length (parts self)) in
      let total_contacts := np.sum cm `div` 2 in
      let divisor := (inject_Z (n_parts * (n_parts - 1)) / 2)%Q in
      Some (total_contacts,
            if Qeq_bool divisor 0
            then None
            else Some (inject_Z total_contacts / divisor)%Q)
  end.

(** What the detector answers for the parts at positions [i] and
    [j]; [false] when there is no such part.  Used in statements. *)
Definition touching (self : STEPContactAnalyzer) (i j : nat) : bool :=
  match parts self !! i, parts self !! j with
  | Some part_i, Some part_j =>
      match _are_parts_in_contact self part_i part_j with
      | Py.Return c => c
      | Py.Raise _ => false
      end
  | _, _ => false
  end.

(** The pairs [(a, b)], [a < b], already visited when the outer loop
    of [compute_contact_matrix] is at [i] and the inner loop at [j]. *)
Definition visited (i j a b : nat) : bool :=
  (a <? b)%nat && ((a <? i)%nat || ((a =? i)%nat && (b <? j)%nat)).

(** The loop invariant of [compute_contact_matrix]: the array is
    square, and an entry is 1 exactly when its pair was visited and
    found touching. *)
Definition partial_matrix (self : STEPContactAnalyzer) (i j : nat)
    (m : np.ndarray) : Prop :=
  let n := length (parts self) in
  np.square n m ∧
  ∀ x y, (x < n)%nat → (y < n)%nat →
    np.entry m x y =
    if visited i j (x `min` y) (x `max` y)
       && touching self (x `min` y) (x `max` y)
    then 1 else 0.

(** Modelled from the spec: the bounding-box pre-filter of the
    matrix builder, which no source file implements ([config.py] only
    declares its flag).  For each pair, when [use_bbox_filter] is on
    and [box_overlap] (margin: the tolerance) is false, the detector
    is skipped and no contact is recorded; otherwise the pair goes to
    the detector as in [contact_step]. *)
Definition filtered_contact_step (box_overlap : Solid -> Solid -> Q -> bool)
    (use_bbox_filter : bool) (self : STEPContactAnalyzer) (i j : nat)
    (m : np.ndarray) : Py.result np.ndarray :=
  part_i ← Py.getitem (parts self) i;
  part_j ← Py.getitem (parts self) j;
  if use_bbox_filter && negb (box_overlap part_i part_j (tolerance self))
  then Py.Return m
  else
    c ← _are_parts_in_contact self part_i part_j;
    if c : bool
    then m' ← np.setitem2 m i j 1; np.setitem2 m' j i 1
    else Py.Return m.

(** Modelled from the spec: [compute(parts, tolerance,
    use_bbox_filter)], the builder with the pre-filter, otherwise
    shaped as [compute_contact_matrix]. *)
Definition filtered_compute_contact_matrix
    (box_overlap : Solid -> Solid -> Q -> bool) (use_bbox_filter : bool)
    (self : STEPContactAnalyzer)
  : Py.result (np.ndarray * STEPContactAnalyzer) :=
  let n_parts := length (parts self) in
  let m0 := np.zeros n_parts n_parts in
  m1 ← Py.for_ (Py.range 0 n_parts) (fun i m =>
         Py.for_ (Py.range (i + 1) n_parts)
           (filtered_contact_step box_overlap use_bbox_filter self i) m) m0;
  let m2 := np.fill_diagonal m1 1 in
  Py.Return (m2, {| tolerance := tolerance self; parts := parts self;
                    contact_matrix := Some m2;
                    part_names := part_names self |}).


End Analyzer.

Arguments STEPContactAnalyzer : clear implicits.

(** ** Configuration ([config.py]) *)





(** ** Matrix statistics ([utils.py]) *)

Record Properties : Type := {
  n_parts : Z;
  total_contacts : Z;
  contact_density : Q;
  max_connections : Z;
  min_connections : Z;
  avg_connections : option Q;
  isolated_parts : Z
}.

Definition analyze_contact_matrix_properties (contact_matrix : np.ndarray)
  : Py.result Properties :=
  let n_parts := Z.of_nat (np.shape0 contact_matrix) in
  let total_contacts := np.sum contact_matrix `div` 2 in
  let max_possible_contacts := (n_parts * (n_parts - 1)) `div` 2 in
  let density :=
    if 0 <? max_possible_contacts
    then (inject_Z total_contacts / inject_Z max_possible_contacts)%Q
    else 0%Q in
  let degree_sequence := map (fun s => s - 1) (np.sum_axis1 contact_matrix) in
  max_connections ← np.max degree_sequence;
  min_connections ← np.min degree_sequence;
  let avg_connections := np.mean degree_sequence in
  let isolated_parts :=
    Z.of_nat (length (filter (fun d => d = 0) degree_sequence)) in
  Py.Return {| n_parts := n_parts;
               total_contacts := total_contacts;
               contact_density := density;
               max_connections := max_connections;
               min_connections := min_connections;
               avg_connections := avg_connections;
               isolated_parts := isolated_parts |}.

(** ** Text files and the [csv] module, as [utils.py] uses them *)

Definition CR : ascii := "013"%char.
Definition LF : ascii := "010"%char.

Module io.

(** A file written through [open(path, 'w', newline='')] holds the
    text as it was written.  A file read through [open(path, 'r')] is
    decoded with universal newlines: a carriage return, alone or
    followed by a line feed, comes out as one line feed.  [pendingcr]
    tells that the previous character was a carriage return. *)
Fixpoint universal_newlines (pendingcr : bool) (s : string) : string :=
  match s with
  | EmptyString => EmptyString
  | String c rest =>
      if Ascii.eqb c CR then String LF (universal_newlines true rest)
      else if Ascii.eqb c LF then
        if pendingcr then universal_newlines false rest
        else String LF (universal_newlines false rest)
      else String c (universal_newlines false rest)
  end.

(** The lines a text file yields when iterated: each ends after a
    line feed, the last one at the end of the text. *)
Fixpoint lines (s : string) : list string :=
  match s with
  | EmptyString => []
  | String c rest =>
      if Ascii.eqb c LF then String c EmptyString :: lines rest
      else match lines rest with
           | [] => [String c EmptyString]
           | l :: ls => String c l :: ls
           end
  end.

(** Iterating [open(path, 'r')] over a file with the given contents. *)
Definition read_lines (contents : string) : list string :=
  lines (universal_newlines false contents).

End io.

Module csv.

(** The [excel] dialect, the default of [csv.writer] and
    [csv.reader]: minimal quoting, doubled quotes, no escape
    character, not strict. *)
Definition delimiter : ascii := ","%char.
Definition quotechar : ascii := "034"%char.
Definition lineterminator : string := String CR (String LF EmptyString).

Inductive cell : Type :=
| Str (s : string)
| Int (z : Z).

(** [str(field)] for a field that is not a string. *)
Definition str (f : cell) : string :=
  match f with
  | Str s => s
  | Int z => pretty z
  end.

(** *** Writer *)

Definition needs_quotes (c : ascii) : bool :=
  Ascii.eqb c delimiter || Ascii.eqb c quotechar
  || Ascii.eqb c CR || Ascii.eqb c LF.

(** [join_append_data]: the characters copied for a field, a quote
    being doubled, and whether the field has to be quoted. *)
Fixpoint join_append_data (field : string) : string * bool :=
  match field with
  | EmptyString => (EmptyString, false)
  | String c rest =>
      let '(copied, quoted) := join_append_data rest in
      if needs_quotes c
      then ((if Ascii.eqb c quotechar
             then String quotechar (String c copied)
             else String c copied), true)
      else (String c copied, quoted)
  end.

(** [join_append] without the separator. *)
Definition join_append (field : string) (quoted : bool) : string :=
  let '(copied, q) := join_append_data field in
  if quoted || q
  then String quotechar (copied +:+ String quotechar EmptyString)
  else copied.

Fixpoint join (fields : list string) : string :=
  match fields with
  | [] => EmptyString
  | [f] => join_append f false
  | f :: fs => join_append f false +:+ String delimiter (join fs)
  end.

(** [writer.writerow(row)]: the text handed to the file.  A record
    that would be empty although it has a field is written as a
    quoted empty field. *)
Definition writerow (row : list cell) : string :=
  let rec := join (map str row) in
  let rec' :=
    if negb (Nat.eqb (length row) 0) && String.eqb rec EmptyString
    then join_append EmptyString true
    else rec in
  rec' +:+ lineterminator.

(** *** Reader *)

Inductive ParserState : Type :=
| START_RECORD
| START_FIELD
| IN_FIELD
| IN_QUOTED_FIELD
| QUOTE_IN_QUOTED_FIELD
| EAT_CRNL.

#[global] Instance ParserState_eq_dec : EqDecision ParserState.
Proof. solve_decision. Defined.

Record ReaderObj : Type := {
  state : ParserState;
  fields : list string;
  field : string
}.

Definition parse_reset : ReaderObj :=
  {| state := START_RECORD; fields := []; field := EmptyString |}.

Definition set_state (st : ParserState) (self : ReaderObj) : ReaderObj :=
  {| state := st; fields := fields self; field := field self |}.

Definition parse_save_field (self : ReaderObj) : ReaderObj :=
  {| state := state self; fields := fields self ++ [field self];
     field := EmptyString |}.

Definition parse_add_char (self : ReaderObj) (c : ascii) : ReaderObj :=
  {| state := state self; fields := fields self;
     field := field self +:+ String c EmptyString |}.

Definition is_newline (c : ascii) : bool :=
  Ascii.eqb c LF || Ascii.eqb c CR.

(** The [START_FIELD] case of [parse_process_char]; [c] is [None] for
    the end-of-line signal the reader gives itself after each line. *)
Definition parse_start_field (self : ReaderObj) (c : option ascii)
  : ReaderObj :=
  match c with
  | None => set_state START_RECORD (parse_save_field self)
  | Some ch =>
      if is_newline ch then set_state EAT_CRNL (parse_save_field self)
      else if Ascii.eqb ch quotechar then set_state IN_QUOTED_FIELD self
      else if Ascii.eqb ch delimiter then parse_save_field self
      else set_state IN_FIELD (parse_add_char self ch)
  end.

(** [parse_process_char]; the escape states are left out, the
    dialect has no escape character. *)
Definition parse_process_char (self : ReaderObj) (c : option ascii)
  : Py.result ReaderObj :=
  match state self, c with
  | START_RECORD, None => Py.Return self
  | START_RECORD, Some ch =>
      if is_newline ch then Py.Return (set_state EAT_CRNL self)
      else Py.Return (parse_start_field (set_state START_FIELD self) c)
  | START_FIELD, _ => Py.Return (parse_start_field self c)
  | IN_FIELD, None =>
      Py.Return (set_state START_RECORD (parse_save_field self))
  | IN_FIELD, Some ch =>
      if is_newline ch
      then Py.Return (set_state EAT_CRNL (parse_save_field self))
      else if Ascii.eqb ch delimiter
      then Py.Return (set_state START_FIELD (parse_save_field self))
      else Py.Return (parse_add_char self ch)
  | IN_QUOTED_FIELD, None => Py.Return self
  | IN_QUOTED_FIELD, Some ch =>
      if Ascii.eqb ch quotechar
      then Py.Return (set_state QUOTE_IN_QUOTED_FIELD self)
      else Py.Return (parse_add_char self ch)
  | QUOTE_IN_QUOTED_FIELD, None =>
      Py.Return (set_state START_RECORD (parse_save_field self))
  | QUOTE_IN_QUOTED_FIELD, Some ch =>
      if Ascii.eqb ch quotechar
      then Py.Return (set_state IN_QUOTED_FIELD (parse_add_char self ch))
      else if Ascii.eqb ch delimiter
      then Py.Return (set_state START_FIELD (parse_save_field self))
      else if is_newline ch
      then Py.Return (set_state EAT_CRNL (parse_save_field self))
      else Py.Return (set_state IN_FIELD (parse_add_char self ch))
  | EAT_CRNL, None => Py.Return (set_state START_RECORD self)
  | EAT_CRNL, Some ch =>
      if is_newline ch then Py.Return self
      else Py.Raise (Py.CsvError
             "new-line character seen in unquoted field - do you need to open the file with newline=''?")
  end.

(** The characters of one line, then the end-of-line signal. *)
Fixpoint parse_line (self : ReaderObj) (line : string)
  : Py.result ReaderObj :=
  match line with
  | EmptyString => parse_process_char self None
  | String c rest =>
      self' ← parse_process_char self (Some c); parse_line self' rest
  end.

(** [list(csv.reader(lines))]: a record is complete when a line ends
    in state [START_RECORD]; when the lines run out inside a record,
    the pending field closes the last record. *)
Fixpoint reader (lines : list string) (self : ReaderObj)
  : Py.result (list (list string)) :=
  match lines with
  | [] =>
      if negb (String.eqb (field self) EmptyString)
         || bool_decide (state self = IN_QUOTED_FIELD)
      then Py.Return [fields (parse_save_field self)]
      else Py.Return []
  | line :: lines' =>
      self' ← parse_line self line;
      match state self' with
      | START_RECORD =>
          rows ← reader lines' parse_reset; Py.Return (fields self' :: rows)
      | _ => reader lines' self'
      end
  end.

End csv.

(** [int(x)] on a string: an optional sign and decimal digits.  The
    white space around the number and the underscores between digits
    that Python also accepts are not modelled; the exporter writes
    neither. *)
Definition digit_value (c : ascii) : option Z :=
  let n := Z.of_nat (nat_of_ascii c) in
  if (48 <=? n) && (n <=? 57) then Some (n - 48) else None.

Fixpoint int_digits (s : string) (acc : Z) : option Z :=
  match s with
  | EmptyString => Some acc
  | String c rest =>
      match digit_value c with
      | Some d => int_digits rest (10 * acc + d)
      | None => None
      end
  end.

Definition int_literal (digits : string) : option Z :=
  match digits with
  | EmptyString => None
  | String _ _ => int_digits digits 0
  end.

Definition int (x : string) : Py.result Z :=
  let parsed :=
    match x with
    | EmptyString => None
    | String c digits =>
        if Ascii.eqb c "-" then Z.opp <$> int_literal digits
        else if Ascii.eqb c "+" then int_literal digits
        else int_literal x
    end in
  match parsed with
  | Some z => Py.Return z
  | None => Py.Raise (Py.ValueError "invalid literal for int() with base 10")
  end.

(** [export_contact_matrix_csv]: the contents of the file written. *)
Definition export_contact_matrix_csv (contact_matrix : np.ndarray)
    (part_names : list string) : Py.result string :=
  let header := csv.writerow (csv.Str EmptyString :: map csv.Str part_names) in
  Py.for_ (Py.enumerate part_names)
    (fun '(i, part_name) csvfile =>
       matrix_row ← Py.getitem contact_matrix i;
       let row := csv.Str part_name :: map csv.Int matrix_row in
       Py.Return (csvfile +:+ csv.writerow row))
    header.

(** [load_contact_matrix_csv] on a file with the given contents.
    [np.array] of the list of rows is that list (for no rows numpy
    builds a one-dimensional empty array, which a list of rows does
    not tell apart from the 0 by 0 matrix). *)
Definition load_contact_matrix_csv (contents : string)
  : Py.result (np.ndarray * list string) :=
  rows ← csv.reader (io.read_lines contents) csv.parse_reset;
  header ← Py.getitem rows 0;
  let part_names := drop 1 header in
  matrix_data ← Py.list_comp (fun row => Py.list_comp int (drop 1 row))
                               (drop 1 rows);
  Py.Return (matrix_data, part_names).

(** ** Notions used to state the shape of the contact graph *)

(** Every key of [_adj] is a node. *)
Definition graph_wf (G : nx.Graph) : Prop :=
  ∀ w, is_Some (nx._adj G !! w) → is_Some (nx._node G !! w).

(** The loop invariant of [get_contact_graph]: the edges are the
    visited pairs with a 1 in the matrix. *)
Definition graph_so_far {Solid : Type} (self : STEPContactAnalyzer Solid)
    (cm : np.ndarray) (i j : nat) (G : nx.Graph) : Prop :=
  let n := length (parts self) in
  graph_wf G ∧
  ∀ u v, v ∈ nx.neighbours G u ↔
         (u < n)%nat ∧ (v < n)%nat ∧
         visited i j (u `min` v) (u `max` v) = true ∧
         np.entry cm (u `min` v) (u `max` v) = 1.

(** ** Notions used to state the CSV round trip *)

(** The first line of a text and the lines after it; the first line of
    the empty text is empty. *)
Definition split_first_line : string → string * list string :=
  fix go (s : string) : string * list string :=
    match s with
    | EmptyString => (EmptyString, [])
    | String c rest =>
        if Ascii.eqb c LF then (String c EmptyString, io.lines rest)
        else let '(l, ls) := go rest in (String c l, ls)
    end.

(** The reader in the middle of a line, [s] being the text still to
    come. *)
Definition reader_mid (s : string) (self : csv.ReaderObj)
  : Py.result (list (list string)) :=
  let '(l, ls) := split_first_line s in csv.reader (l :: ls) self.

(** No carriage return in the string. *)
Fixpoint cr_free (s : string) : bool :=
  match s with
  | EmptyString => true
  | String c rest => negb (Ascii.eqb c CR) && cr_free rest
  end.

(** [csv.needs_quotes] holds of no character of the string. *)
Fixpoint plain (s : string) : bool :=
  match s with
  | EmptyString => true
  | String c rest => negb (csv.needs_quotes c) && plain rest
  end.

(** The parser after the text of a field [f] that began in state [st]
    ([START_RECORD] or [START_FIELD]). *)
Definition field_done (st : csv.ParserState) (acc : list string) (f : string)
  : csv.ReaderObj :=
  if plain f
  then match f with
       | EmptyString =>
           {| csv.state := st; csv.fields := acc; csv.field := EmptyString |}
       | String _ _ =>
           {| csv.state := csv.IN_FIELD; csv.fields := acc; csv.field := f |}
       end
  else {| csv.state := csv.QUOTE_IN_QUOTED_FIELD; csv.fields := acc;
          csv.field := f |}.

(** No carriage return in any of the fields. *)
Fixpoint all_cr_free (fs : list string) : bool :=
  match fs with
  | [] => true
  | f :: fs' => cr_free f && all_cr_free fs'
  end.

(** The text [csv.writerow] gives for a record with fields [fs], before
    the line terminator. *)
Definition record_text (fs : list string) : string :=
  if negb (Nat.eqb (length fs) 0) && String.eqb (csv.join fs) EmptyString
  then csv.join_append EmptyString true
  else csv.join fs.

(** The contents of a file to which the rows were written in turn. *)
Fixpoint file_text (rows : list (list csv.cell)) : string :=
  match rows with
  | [] => EmptyString
  | row :: rows' => csv.writerow row +:+ file_text rows'
  end.

(** A row with at least one cell and no carriage return in it. *)
Definition row_ok (row : list csv.cell) : bool :=
  negb (Nat.eqb (length row) 0) && all_cr_free (map csv.str row).

(** The rows [export_contact_matrix_csv] writes after the header. *)
Definition matrix_rows (part_names : list string) (contact_matrix : np.ndarray)
  : list (list csv.cell) :=
  zip_with (fun part_name matrix_row =>
              csv.Str part_name :: map csv.Int matrix_row)
    part_names contact_matrix.

(** ** Concrete assemblies used as test inputs *)

Module Scenario.

(** Three parts in a row: parts 0 and 1 are 0.0005 apart, parts 1
    and 2 are 0.0008 apart, parts 0 and 2 are 5.0 apart. *)
Definition distances (a b : nat) : Py.result DistShapeShape :=
  match a, b with
  | 0, 1 | 1, 0 => Py.Return {| IsDone := true; Value := 5 # 10000 |}
  | 1, 2 | 2, 1 => Py.Return {| IsDone := true; Value := 8 # 10000 |}
  | _, _ => Py.Return {| IsDone := true; Value := 5 |}
  end%nat.

Definition chain : STEPContactAnalyzer nat :=
  {| tolerance := 1 # 1000; parts := [0; 1; 2]%nat;
     contact_matrix := None;
     part_names := ["Part_0"; "Part_1"; "Part_2"] |}.

Definition chain_matrix : np.ndarray := [[1; 1; 0]; [1; 1; 1]; [0; 1; 1]].

(** The analyzer of [test_graph_creation] in [test.py]. *)
Definition chain_computed : STEPContactAnalyzer nat :=
  {| tolerance := 1 # 1000000; parts := [0; 1; 2]%nat;
     contact_matrix := Some chain_matrix;
     part_names := ["Part_0"; "Part_1"; "Part_2"] |}.

(** Four parts: the query on parts 0 and 1 raises, the query on parts
    0 and 2 does not converge, parts 2 and 3 are exactly the
    tolerance apart, every other pair is 5.0 apart. *)
Definition faulty_distances (a b : nat) : Py.result DistShapeShape :=
  match a, b with
  | 0, 1 => Py.Raise (Py.RuntimeError "Standard_Failure")
  | 0, 2 => Py.Return {| IsDone := false; Value := 0 |}
  | 2, 3 => Py.Return {| IsDone := true; Value := 1 # 1000 |}
  | _, _ => Py.Return {| IsDone := true; Value := 5 |}
  end%nat.

Definition four : STEPContactAnalyzer nat :=
  {| tolerance := 1 # 1000; parts := [0; 1; 2; 3]%nat;
     contact_matrix := None;
     part_names := ["Part_0"; "Part_1"; "Part_2"; "Part_3"] |}.


(** A file the reader cannot read, and a file with two solids. *)
Definition unreadable (file_path : string) : STEPControl_Reader nat :=
  {| ReadFile := Py.Return 0; OneShape := Py.Return [];
     Explorer_raises := None |}.

Definition two_solids (file_path : string) : STEPControl_Reader nat :=
  {| ReadFile := Py.Return 1; OneShape := Py.Return [7; 8]%nat;
     Explorer_raises := None |}.

(** The chain with its matrix computed and a list of part names of
    the wrong length: too short, too long. *)
Definition one_name : STEPContactAnalyzer nat :=
  {| tolerance := 1 # 1000; parts := [0; 1; 2]%nat;
     contact_matrix := Some chain_matrix;
     part_names := ["Base"] |}.

Definition four_names : STEPContactAnalyzer nat :=
  {| tolerance := 1 # 1000; parts := [0; 1; 2]%nat;
     contact_matrix := Some chain_matrix;
     part_names := ["Base"; "Shaft"; "Bearing"; "Housing"] |}.

(** Part names with a comma, a quote and a line feed in them. *)
Definition awkward_names : list string :=
  ["Base, left"; String csv.quotechar "Shaft"; String "a" (String LF "b")].

(** A part name with a carriage return in it. *)
Definition name_with_cr : string :=
  String "a" (String CR (String "b" EmptyString)).

End Scenario.

(** ** Notions used to state the nodes of the contact graph *)

(** The loop invariant of [get_contact_graph] on nodes: a part with a
    name is a node with that name as its only attribute; a part without
    a name is a node, without attributes, exactly when it has a
    neighbour. *)
Definition nodes_ok (names : list string) (G : nx.Graph) : Prop :=
  ∀ k,
    match names !! k with
    | Some name => nx._node G !! k = Some {["name" := name]}
    | None =>
        (nx._node G !! k = Some ∅ ∧ ∃ v, v ∈ nx.neighbours G k) ∨
        (nx._node G !! k = None ∧ ∀ v, v ∉ nx.neighbours G k)
    end.

(** ** The part lines of [print_contact_summary] *)

(** The comprehension of [print_contact_summary] for part [i]: the
    names [part_names[j]] with [contact_matrix[i, j] == 1 and i != j],
    for [j] in [range(len(part_names))]. *)
Definition connected_parts (cm : np.ndarray) (names : list string) (i : nat)
  : Py.result (list string) :=
  Py.for_ (Py.range 0 (length names))
    (fun j connected =>
       x ← np.getitem2 cm i j;
       if (x =? 1) && negb (i =? j)%nat
       then name ← Py.getitem names j; Py.Return (connected ++ [name])
       else Py.Return connected)
    [].

(** What [print_contact_summary] prints under "Part connections": for
    each part name, the number of connections and the names of the
    connected parts; [None] when no matrix was computed. *)
Definition print_contact_summary_parts {Solid : Type}
    (self : STEPContactAnalyzer Solid)
  : option (Py.result (list (string * Z * list string))) :=
  match contact_matrix self with
  | None => None
  | Some cm =>
      Some (Py.list_comp
              (fun '(i, name) =>
                 row ← Py.getitem cm i;
                 let connections := np.sum1 row - 1 in
                 connected ← connected_parts cm (part_names self) i;
                 Py.Return (name, connections, connected))
              (Py.enumerate (part_names self)))
  end.

(** ** Notions used to relate the statistics to the graph *)

(** A contact matrix as [compute_contact_matrix] builds them: square,
    0/1, unit diagonal, symmetric. *)
Definition contact_matrix_ok (n : nat) (cm : np.ndarray) : Prop :=
  np.square n cm ∧
  (∀ i j, np.entry cm i j = 0 ∨ np.entry cm i j = 1) ∧
  (∀ i, (i < n)%nat → np.entry cm i i = 1) ∧
  (∀ i j, np.entry cm i j = np.entry cm j i).

(** [g 0 + ... + g (n - 1)] *)
Fixpoint zsum (g : nat → Z) (n : nat) : Z :=
  match n with
  | O => 0
  | S n' => zsum g n' + g n'
  end.

(** 1 when parts [u] and [v] are different and the matrix has a 1 for
    them above the diagonal, else 0. *)
Definition adjacent (cm : np.ndarray) (u v : nat) : Z :=
  if decide (u ≠ v ∧ np.entry cm (u `min` v) (u `max` v) = 1) then 1 else 0.

(** The number of pairs [v < u < n] with a 1 in the matrix. *)
Definition pairs_in_contact (cm : np.ndarray) (n : nat) : Z :=
  zsum (fun u => zsum (adjacent cm u) u) n.

(** ** Further inputs *)

Module Inputs.


(** The chain of three parts under a tolerance of 0.01. *)
Definition chain_loose : STEPContactAnalyzer nat :=
  {| tolerance := 1 # 100; parts := [0; 1; 2]%nat;
     contact_matrix := None;
     part_names := ["Part_0"; "Part_1"; "Part_2"] |}.

(** A matrix that agrees with the chain's above the diagonal and is 0
    on it and below. *)
Definition upper_only : np.ndarray := [[0; 1; 0]; [0; 0; 1]; [0; 0; 0]].

Definition chain_upper_only : STEPContactAnalyzer nat :=
  {| tolerance := 1 # 1000000; parts := [0; 1; 2]%nat;
     contact_matrix := Some upper_only;
     part_names := ["Part_0"; "Part_1"; "Part_2"] |}.

(** Three parts, the third touching nothing, and names for the first
    two only. *)
Definition isolated_unnamed : STEPContactAnalyzer nat :=
  {| tolerance := 1 # 1000; parts := [0; 1; 2]%nat;
     contact_matrix := Some [[1; 1; 0]; [1; 1; 0]; [0; 0; 1]];
     part_names := ["Base"; "Shaft"] |}.

(** Three parts and a matrix computed for two. *)
Definition stale : STEPContactAnalyzer nat :=
  {| tolerance := 1 # 1000; parts := [0; 1; 2]%nat;
     contact_matrix := Some [[1; 1]; [1; 1]];
     part_names := ["Part_0"; "Part_1"; "Part_2"] |}.

End Inputs.

(** * Properties *)

(** ** Loops *)

Lemma range_nil lo : Py.range lo lo = [].
Proof. unfold Py.range. by rewrite Nat.sub_diag. Qed.

Lemma range_cons lo hi :
  (lo < hi)%nat → Py.range lo hi = lo :: Py.range (S lo) hi.
Proof.
  intros H. unfold Py.range.
  replace (hi - lo)%nat with (S (hi - S lo)) by lia. reflexivity.
Qed.

(** A loop over [range(lo, hi)] whose body keeps an invariant indexed
    by the loop counter runs to its end and establishes the invariant
    at [hi]. *)
Lemma for_range_invariant {St} (I : nat → St → Prop)
    (body : nat → St → Py.result St) (hi : nat) :
  (∀ k s, (k < hi)%nat → I k s →
          ∃ s', body k s = Py.Return s' ∧ I (k + 1)%nat s') →
  ∀ d lo s, (lo + d = hi)%nat → I lo s →
  ∃ s', Py.for_ (Py.range lo hi) body s = Py.Return s' ∧ I hi s'.
Proof.
  intros Hbody. induction d as [|d IH]; intros lo s Hlo HI.
  - assert (lo = hi) as -> by lia. rewrite range_nil. simpl. eauto.
  - rewrite range_cons by lia. simpl.
    destruct (Hbody lo s) as (s1 & -> & HI1); [lia | done |].
    simpl. replace (lo + 1)%nat with (S lo) in HI1 by lia.
    apply IH; [lia | done].
Qed.

(** ** Matrices *)

Lemma square_zeros n : np.square n (np.zeros n n).
Proof.
  split; [apply length_replicate|].
  intros i row [-> _]%lookup_replicate. apply length_replicate.
Qed.

Lemma entry_zeros n i j : np.entry (np.zeros n n) i j = 0.
Proof.
  unfold np.entry, np.zeros.
  destruct (replicate n (replicate n 0) !! i) as [row|] eqn:E. 2: { done. }
  apply lookup_replicate in E as [-> _]. simpl.
  destruct (replicate n 0 !! j) as [x|] eqn:E'; [|done].
  by apply lookup_replicate in E' as [-> _].
Qed.

(** An in-range assignment succeeds, keeps the shape and changes the
    one entry. *)
Lemma setitem2_square n (a : np.ndarray) i j v :
  np.square n a → (i < n)%nat → (j < n)%nat →
  ∃ a', np.setitem2 a i j v = Py.Return a' ∧ np.square n a' ∧
        ∀ x y, np.entry a' x y =
               if decide (x = i ∧ y = j) then v else np.entry a x y.
Proof.
  intros [Hlen Hrows] Hi Hj. unfold np.setitem2.
  destruct (a !! i) as [row|] eqn:Ei.
  2: { apply lookup_ge_None in Ei. lia. }
  pose proof (Hrows _ _ Ei) as Hrow.
  rewrite decide_True by lia.
  eexists; split; [reflexivity|]. split.
  - split; [by rewrite length_insert|].
    intros k r Hk. destruct (decide (k = i)) as [->|Hne].
    + rewrite list_lookup_insert_eq in Hk by lia.
      injection Hk as <-. by rewrite length_insert.
    + rewrite list_lookup_insert_ne in Hk by done. eauto.
  - intros x y. unfold np.entry.
    destruct (decide (x = i)) as [->|Hne].
    + rewrite list_lookup_insert_eq by lia. simpl.
      destruct (decide (y = j)) as [->|Hne'].
      * rewrite decide_True by done.
        by rewrite list_lookup_insert_eq by lia.
      * rewrite decide_False by tauto.
        rewrite list_lookup_insert_ne by done. by rewrite Ei.
    + rewrite decide_False by tauto.
      by rewrite list_lookup_insert_ne by done.
Qed.

Lemma fill_diagonal_square n (a : np.ndarray) v :
  np.square n a → np.square n (np.fill_diagonal a v).
Proof.
  intros [Hlen Hrows]. unfold np.fill_diagonal. split.
  - by rewrite length_imap.
  - intros i row Hi. rewrite list_lookup_imap in Hi.
    destruct (a !! i) as [r|] eqn:E; [|done]. simpl in Hi.
    injection Hi as <-. rewrite length_insert. eauto.
Qed.

Lemma entry_fill_diagonal n (a : np.ndarray) v x y :
  np.square n a → (x < n)%nat →
  np.entry (np.fill_diagonal a v) x y =
  if decide (x = y) then v else np.entry a x y.
Proof.
  intros [Hlen Hrows] Hx. unfold np.entry, np.fill_diagonal.
  rewrite list_lookup_imap.
  destruct (a !! x) as [row|] eqn:E.
  2: { apply lookup_ge_None in E. lia. }
  simpl. pose proof (Hrows _ _ E) as Hrow.
  destruct (decide (x = y)) as [->|Hne].
  - by rewrite list_lookup_insert_eq by lia.
  - by rewrite list_lookup_insert_ne by done.
Qed.

(** ** The contact matrix *)

Section Contact_matrix.

Context {Solid : Type}.
Variable BRepExtrema : Solid → Solid → Py.result DistShapeShape.
Variable self : STEPContactAnalyzer Solid.

Let n := length (parts self).

(** The detector never raises. *)
Lemma are_parts_in_contact_returns part1 part2 :
  ∃ b, _are_parts_in_contact BRepExtrema self part1 part2 = Py.Return b.
Proof.
  unfold _are_parts_in_contact, are_parts_in_contact_body.
  destruct (BRepExtrema part1 part2) as [calc|e]; simpl; [|eauto].
  destruct (IsDone calc); simpl; eauto.
Qed.

Lemma contact_step_touching i j m :
  (i < n)%nat → (j < n)%nat →
  contact_step BRepExtrema self i j m =
  if touching BRepExtrema self i j
  then m' ← np.setitem2 m i j 1; np.setitem2 m' j i 1
  else Py.Return m.
Proof.
  intros Hi Hj. unfold contact_step, touching, Py.getitem.
  destruct (parts self !! i) as [p|] eqn:Ei.
  2: { apply lookup_ge_None in Ei. subst n. lia. }
  destruct (parts self !! j) as [q|] eqn:Ej.
  2: { apply lookup_ge_None in Ej. subst n. lia. }
  simpl. destruct (are_parts_in_contact_returns p q) as [b ->].
  reflexivity.
Qed.

Lemma contact_step_partial i j m :
  (i < j)%nat → (j < n)%nat → partial_matrix BRepExtrema self i j m →
  ∃ m', contact_step BRepExtrema self i j m = Py.Return m' ∧
        partial_matrix BRepExtrema self i (j + 1) m'.
Proof.
  intros Hij Hj [Hsq Hent]. rewrite contact_step_touching by lia.
  destruct (touching BRepExtrema self i j) eqn:Ht.
  - destruct (setitem2_square n m i j 1) as (m1 & -> & Hsq1 & Hent1);
      [done | lia | lia |].
    destruct (setitem2_square n m1 j i 1) as (m2 & E2 & Hsq2 & Hent2);
      [done | lia | lia |].
    simpl. rewrite E2. eexists; split; [reflexivity|]. split; [done|].
    intros x y Hx Hy. rewrite Hent2, Hent1, Hent by done.
    unfold visited.
    destruct (decide (x = j ∧ y = i)) as [[-> ->]|Hn1].
    { replace (j `min` i)%nat with i by lia.
      replace (j `max` i)%nat with j by lia. rewrite Ht.
      replace (i <? j)%nat with true by (symmetry; apply Nat.ltb_lt; lia).
      replace (i =? i)%nat with true by (symmetry; apply Nat.eqb_eq; lia).
      replace (j <? j + 1)%nat with true by (symmetry; apply Nat.ltb_lt; lia).
      by rewrite orb_true_r. }
    destruct (decide (x = i ∧ y = j)) as [[-> ->]|Hn2].
    { replace (i `min` j)%nat with i by lia.
      replace (i `max` j)%nat with j by lia. rewrite Ht.
      replace (i <? j)%nat with true by (symmetry; apply Nat.ltb_lt; lia).
      replace (i =? i)%nat with true by (symmetry; apply Nat.eqb_eq; lia).
      replace (j <? j + 1)%nat with true by (symmetry; apply Nat.ltb_lt; lia).
      by rewrite orb_true_r. }
    assert (¬ (x `min` y = i ∧ x `max` y = j)%nat) as Hn by lia.
    replace ((x `min` y =? i)%nat && (x `max` y <? j + 1)%nat)
      with ((x `min` y =? i)%nat && (x `max` y <? j)%nat); [done|].
    destruct (Nat.eqb_spec (x `min` y) i); [|done]. simpl.
    destruct (Nat.ltb_spec (x `max` y) j), (Nat.ltb_spec (x `max` y) (j + 1));
      (done || lia).
  - eexists; split; [reflexivity|]. split; [done|].
    intros x y Hx Hy. rewrite Hent by done. unfold visited.
    destruct (decide (x `min` y = i ∧ x `max` y = j)%nat) as [[-> ->]|Hn].
    { rewrite Ht. by rewrite !andb_false_r. }
    replace ((x `min` y =? i)%nat && (x `max` y <? j + 1)%nat)
      with ((x `min` y =? i)%nat && (x `max` y <? j)%nat); [done|].
    destruct (Nat.eqb_spec (x `min` y) i); [|done]. simpl.
    destruct (Nat.ltb_spec (x `max` y) j), (Nat.ltb_spec (x `max` y) (j + 1));
      (done || lia).
Qed.

Lemma visited_next_row i a b :
  (b < n)%nat → visited i n a b = visited (i + 1) (i + 1 + 1) a b.
Proof.
  intros Hb. unfold visited.
  destruct (Nat.ltb_spec a b); simpl; [|done].
  destruct (Nat.ltb_spec a i), (Nat.ltb_spec a (i + 1)),
    (Nat.eqb_spec a i), (Nat.eqb_spec a (i + 1)),
    (Nat.ltb_spec b n), (Nat.ltb_spec b (i + 1 + 1)); simpl; (done || lia).
Qed.

Lemma inner_loop_partial i m :
  (i < n)%nat → partial_matrix BRepExtrema self i (i + 1) m →
  ∃ m', Py.for_ (Py.range (i + 1) n) (contact_step BRepExtrema self i) m
        = Py.Return m' ∧
        partial_matrix BRepExtrema self (i + 1) (i + 1 + 1) m'.
Proof.
  intros Hi Hm.
  destruct (for_range_invariant
              (fun j m => (i < j)%nat ∧ partial_matrix BRepExtrema self i j m)
              (contact_step BRepExtrema self i) n) with
    (d := (n - (i + 1))%nat) (lo := (i + 1)%nat) (s := m)
    as (m' & E & _ & Hsq & Hent).
  - intros j s Hj [Hij Hs].
    destruct (contact_step_partial i j s) as (s' & ? & ?); [done..|].
    exists s'. split; [done|]. split; [lia | done].
  - lia.
  - split; [lia | done].
  - exists m'. split; [done|]. split; [done|].
    intros x y Hx Hy. rewrite Hent by done.
    rewrite visited_next_row by lia. done.
Qed.

Lemma outer_loop_partial :
  ∃ m, Py.for_ (Py.range 0 n) (fun i m =>
         Py.for_ (Py.range (i + 1) n) (contact_step BRepExtrema self i) m)
         (np.zeros n n) = Py.Return m ∧
       partial_matrix BRepExtrema self n (n + 1) m.
Proof.
  apply (for_range_invariant
           (fun i m => partial_matrix BRepExtrema self i (i + 1) m))
    with (d := n).
  - intros i s Hi Hs. by apply inner_loop_partial.
  - lia.
  - split; [apply square_zeros|].
    intros x y _ _. rewrite entry_zeros. unfold visited.
    destruct (Nat.ltb_spec (x `min` y) (x `max` y)); simpl; [|done].
    destruct (Nat.eqb_spec (x `min` y) 0); simpl; [|done].
    destruct (Nat.ltb_spec (x `max` y) 1); simpl; [lia | done].
Qed.

(** [compute_contact_matrix] returns, for any geometry kernel, and
    each entry of the matrix is decided by its own pair of parts. *)
Lemma compute_contact_matrix_entries :
  ∃ m, compute_contact_matrix BRepExtrema self =
         Py.Return (m, {| tolerance := tolerance self; parts := parts self;
                          contact_matrix := Some m;
                          part_names := part_names self |}) ∧
       np.square n m ∧
       ∀ x y, (x < n)%nat → (y < n)%nat →
         np.entry m x y =
         if decide (x = y) then 1
         else if touching BRepExtrema self (x `min` y) (x `max` y)
              then 1 else 0.
Proof.
  destruct outer_loop_partial as (m1 & E & Hsq & Hent).
  exists (np.fill_diagonal m1 1). unfold compute_contact_matrix.
  fold n. rewrite E. split; [reflexivity|].
  split; [by apply fill_diagonal_square|].
  intros x y Hx Hy. rewrite (entry_fill_diagonal n) by done.
  destruct (decide (x = y)) as [|Hne]; [done|].
  rewrite Hent by done. unfold visited.
  replace (x `min` y <? x `max` y)%nat with true
    by (symmetry; apply Nat.ltb_lt; lia).
  replace (x `min` y <? n)%nat with true
    by (symmetry; apply Nat.ltb_lt; lia).
  done.
Qed.

End Contact_matrix.

(** ** Claims on the contact matrix and the detector *)

(** C1: for every list of parts (and every geometry kernel),
    [compute_contact_matrix] returns a square matrix over the parts
    which is symmetric, has every diagonal entry equal to 1 and every
    entry equal to 0 or 1; the analyzer keeps that matrix. *)
Theorem compute_contact_matrix_symmetric_unit_diagonal {Solid : Type}
    (BRepExtrema : Solid → Solid → Py.result DistShapeShape)
    (self : STEPContactAnalyzer Solid) :
  ∃ m self',
    compute_contact_matrix BRepExtrema self = Py.Return (m, self') ∧
    contact_matrix self' = Some m ∧
    np.square (length (parts self)) m ∧
    ∀ i j, (i < length (parts self))%nat → (j < length (parts self))%nat →
      np.entry m i j = np.entry m j i ∧
      np.entry m i i = 1 ∧
      (np.entry m i j = 0 ∨ np.entry m i j = 1).
Proof.
  destruct (compute_contact_matrix_entries BRepExtrema self)
    as (m & E & Hsq & Hent).
  eexists m, _. split; [exact E|]. split; [reflexivity|]. split; [done|].
  intros i j Hi Hj. rewrite !Hent by done.
  rewrite (Nat.min_comm j i), (Nat.max_comm j i).
  rewrite (decide_True (P := i = i)) by done.
  destruct (decide (i = j)), (decide (j = i)); try congruence; [auto|].
  destruct (touching _ _ _ _); auto.
Qed.

Lemma compute_contact_matrix_symmetric_unit_diagonal_witness :
  ∃ m self',
    compute_contact_matrix Scenario.distances Scenario.chain
      = Py.Return (m, self') ∧
    np.entry m 0 2 = np.entry m 2 0 ∧ np.entry m 0 0 = 1 ∧
    (np.entry m 0 2 = 0 ∨ np.entry m 0 2 = 1).
Proof.
  destruct (compute_contact_matrix_symmetric_unit_diagonal
              Scenario.distances Scenario.chain) as (m & self' & E & _ & _ & H).
  exists m, self'. split; [exact E|].
  apply (H 0 2)%nat; simpl; lia.
Defined.

(** A reported distance equal to the tolerance is a contact. *)
Lemma are_parts_in_contact_at_tolerance {Solid : Type}
    (BRepExtrema : Solid → Solid → Py.result DistShapeShape)
    (self : STEPContactAnalyzer Solid) (part1 part2 : Solid) d :
  BRepExtrema part1 part2 = Py.Return {| IsDone := true; Value := d |} →
  (d == tolerance self)%Q →
  _are_parts_in_contact BRepExtrema self part1 part2 = Py.Return true.
Proof.
  intros E Hd. unfold _are_parts_in_contact, are_parts_in_contact_body.
  rewrite E. simpl. f_equal. apply Qle_bool_iff. rewrite Hd. apply Qle_refl.
Qed.

(** C3: the contact test answers true exactly when the geometry kernel
    reports a minimum distance and that distance is at most the
    tolerance; a distance equal to the tolerance counts as contact. *)
Theorem are_parts_in_contact_iff_within_tolerance {Solid : Type}
    (BRepExtrema : Solid → Solid → Py.result DistShapeShape)
    (self : STEPContactAnalyzer Solid) (part1 part2 : Solid) :
  _are_parts_in_contact BRepExtrema self part1 part2 = Py.Return true ↔
  ∃ min_distance,
    BRepExtrema part1 part2
      = Py.Return {| IsDone := true; Value := min_distance |} ∧
    (min_distance <= tolerance self)%Q.
Proof.
  unfold _are_parts_in_contact, are_parts_in_contact_body.
  destruct (BRepExtrema part1 part2) as [[done d]|e]; simpl.
  - destruct done; simpl.
    + split.
      * intros [= H]. exists d. split; [done|]. by apply Qle_bool_iff.
      * intros (d' & [= <-] & H). f_equal. by apply Qle_bool_iff.
    + split; [done|]. by intros (d' & [=] & _).
  - split; [done|]. by intros (d' & [=] & _).
Qed.

Lemma are_parts_in_contact_iff_within_tolerance_witness :
  _are_parts_in_contact Scenario.faulty_distances Scenario.four 2%nat 3%nat
    = Py.Return true.
Proof.
  apply (are_parts_in_contact_iff_within_tolerance
           Scenario.faulty_distances Scenario.four 2 3)%nat.
  exists (1 # 1000)%Q. split; [reflexivity|]. simpl. apply Qle_refl.
Defined.

(** C4: a pair whose distance query raises or does not converge is
    answered [False] by the contact test, and [compute_contact_matrix]
    returns whatever the kernel does on each pair: the entries of a
    pair whose query failed are 0, the entries of every other pair are
    decided by that pair's own distance. *)
Theorem failed_queries_do_not_abort {Solid : Type}
    (BRepExtrema : Solid → Solid → Py.result DistShapeShape)
    (self : STEPContactAnalyzer Solid) :
  (∀ part1 part2,
     match BRepExtrema part1 part2 with
     | Py.Raise _ =>
         _are_parts_in_contact BRepExtrema self part1 part2 = Py.Return false
     | Py.Return calc =>
         IsDone calc = false →
         _are_parts_in_contact BRepExtrema self part1 part2 = Py.Return false
     end) ∧
  ∃ m self',
    compute_contact_matrix BRepExtrema self = Py.Return (m, self') ∧
    ∀ i j part_i part_j,
      (i < j)%nat →
      parts self !! i = Some part_i → parts self !! j = Some part_j →
      np.entry m j i = np.entry m i j ∧
      np.entry m i j =
        match BRepExtrema part_i part_j with
        | Py.Raise _ => 0
        | Py.Return calc =>
            if IsDone calc && Qle_bool (Value calc) (tolerance self)
            then 1 else 0
        end.
Proof.
  split.
  - intros p q. unfold _are_parts_in_contact, are_parts_in_contact_body.
    destruct (BRepExtrema p q) as [calc|e]; simpl; [|done].
    by intros ->.
  - destruct (compute_contact_matrix_entries BRepExtrema self)
      as (m & E & Hsq & Hent).
    eexists m, _. split; [exact E|].
    intros i j p q Hij Ei Ej.
    pose proof (lookup_lt_Some _ _ _ Ei) as Hi.
    pose proof (lookup_lt_Some _ _ _ Ej) as Hj.
    rewrite !Hent by done.
    rewrite (Nat.min_comm j i), (Nat.max_comm j i).
    replace (i `min` j)%nat with i by lia.
    replace (i `max` j)%nat with j by lia.
    rewrite !decide_False by lia. split; [done|].
    unfold touching. rewrite Ei, Ej.
    unfold _are_parts_in_contact, are_parts_in_contact_body.
    destruct (BRepExtrema p q) as [calc|e]; simpl; [|done].
    destruct (IsDone calc); simpl; [|done].
    by destruct (Qle_bool _ _).
Qed.

Lemma failed_queries_do_not_abort_witness :
  _are_parts_in_contact Scenario.faulty_distances Scenario.four 0%nat 1%nat
    = Py.Return false ∧
  _are_parts_in_contact Scenario.faulty_distances Scenario.four 0%nat 2%nat
    = Py.Return false ∧
  ∃ m self',
    compute_contact_matrix Scenario.faulty_distances Scenario.four
      = Py.Return (m, self') ∧
    np.entry m 0 1 = 0 ∧ np.entry m 0 2 = 0 ∧ np.entry m 2 3 = 1.
Proof.
  destruct (failed_queries_do_not_abort Scenario.faulty_distances Scenario.four)
    as (Hpair & m & self' & E & H).
  split; [exact (Hpair 0 1)%nat|].
  split; [exact (Hpair 0 2 eq_refl)%nat|].
  exists m, self'. split; [exact E|].
  split; [|split].
  - exact (proj2 (H 0 1 0 1 ltac:(lia) eq_refl eq_refl)%nat).
  - exact (proj2 (H 0 2 0 2 ltac:(lia) eq_refl eq_refl)%nat).
  - exact (proj2 (H 2 3 2 3 ltac:(lia) eq_refl eq_refl)%nat).
Defined.

(** ** The bounding-box filter *)






(** The hypothesis is needed: a pre-filter that rejects every pair
    leaves only the diagonal. *)
Example rejecting_filter_changes_the_matrix :
  ∃ m self',
    filtered_compute_contact_matrix Scenario.distances
      (fun _ _ _ => false) true Scenario.chain = Py.Return (m, self') ∧
    m = [[1; 0; 0]; [0; 1; 0]; [0; 0; 1]] ∧
    m ≠ Scenario.chain_matrix.
Proof. eexists _, _. split; [reflexivity|]. split; [reflexivity|]. done. Qed.

(** ** Loading a STEP file *)

Lemma explore_spec {Solid : Type} (explorer : list Solid) (part_index : nat)
    (self : STEPContactAnalyzer Solid) :
  explore explorer part_index self =
  {| tolerance := tolerance self;
     parts := parts self ++ explorer;
     contact_matrix := contact_matrix self;
     part_names :=
       part_names self
       ++ imap (fun k _ => "Part_" +:+ pretty (part_index + k)%nat) explorer |}.
Proof.
  revert part_index self.
  induction explorer as [|solid explorer IH]; intros part_index self; simpl.
  - rewrite !app_nil_r. by destruct self.
  - rewrite IH. simpl. rewrite <- !app_assoc. simpl.
    rewrite Nat.add_0_r. do 3 f_equal.
    apply imap_ext. intros k x _. simpl. do 2 f_equal. lia.
Qed.

(** C10: when the reader reports a status other than 1,
    [load_step_file] returns [False] and the analyzer, its parts and
    part names included, is as it was before the call; when it reports
    1 (and nothing raises afterwards), [load_step_file] returns [True]
    and the parts are the solids in the order the explorer visits them,
    named [Part_0], [Part_1], ... by that order, whatever the lists
    held before; and the analyzer changes only after a read with
    status 1. *)
Theorem load_step_file_status {Solid : Type}
    (STEPControl : string → STEPControl_Reader Solid)
    (self : STEPContactAnalyzer Solid) (file_path : string) :
  (∀ status,
     ReadFile (STEPControl file_path) = Py.Return status → status ≠ 1 →
     load_step_file STEPControl self file_path = (false, self)) ∧
  (∀ solids,
     ReadFile (STEPControl file_path) = Py.Return 1 →
     OneShape (STEPControl file_path) = Py.Return solids →
     Explorer_raises (STEPControl file_path) = None →
     load_step_file STEPControl self file_path =
     (true,
      {| tolerance := tolerance self;
         parts := solids;
         contact_matrix := contact_matrix self;
         part_names := imap (fun i _ => "Part_" +:+ pretty i) solids |})) ∧
  (ReadFile (STEPControl file_path) ≠ Py.Return 1 →
   load_step_file STEPControl self file_path = (false, self)).
Proof.
  unfold load_step_file, load_step_file_body. split; [|split].
  - intros status -> Hne.
    destruct (Z.eqb_spec status 1); [done|]. reflexivity.
  - intros solids -> -> ->. simpl. by rewrite explore_spec.
  - intros Hne.
    destruct (ReadFile (STEPControl file_path)) as [status|e]; [|done].
    destruct (Z.eqb_spec status 1) as [->|]; [done|]. reflexivity.
Qed.

Lemma load_step_file_status_witness :
  load_step_file Scenario.unreadable Scenario.chain "knife.step"
    = (false, Scenario.chain) ∧
  load_step_file Scenario.two_solids Scenario.chain "knife.step"
    = (true,
       {| tolerance := 1 # 1000; parts := [7; 8]%nat;
          contact_matrix := None; part_names := ["Part_0"; "Part_1"] |}).
Proof.
  split.
  - apply (proj1 (load_step_file_status Scenario.unreadable Scenario.chain
                    "knife.step") 0); [reflexivity | lia].
  - apply (proj1 (proj2 (load_step_file_status Scenario.two_solids
                           Scenario.chain "knife.step")) [7; 8]%nat);
      reflexivity.
Defined.

(** ** Statistics of a contact matrix *)

(** C2, as the code behaves: on the matrix of the three-part chain,
    [get_contact_graph] builds 3 nodes and 2 edges, while
    [analyze_contact_matrix_properties] halves the sum of the whole
    matrix, diagonal included, and so reports 3 contacts and density 1
    where the chain has 2 edges and density 2/3. *)
Theorem chain_analysis_counts_the_diagonal :
  ∃ props G,
    analyze_contact_matrix_properties Scenario.chain_matrix = Py.Return props ∧
    total_contacts props = 3 ∧
    (contact_density props == 1)%Q ∧
    get_contact_graph Scenario.chain_computed = Py.Return G ∧
    nx.number_of_nodes G = 3%nat ∧
    nx.number_of_edges G = 2%nat.
Proof.
  eexists _, _. split; [reflexivity|]. split; [reflexivity|].
  split; [reflexivity|]. split; [reflexivity|].
  split; vm_compute; reflexivity.
Qed.

(** C5, as the code behaves: on a matrix with no rows the maximum of
    the empty degree sequence raises [ValueError], so no statistics are
    returned. *)
Theorem analyze_empty_matrix_raises :
  analyze_contact_matrix_properties (np.zeros 0 0) =
  Py.Raise (Py.ValueError
    "zero-size array to reduction operation maximum which has no identity").
Proof. reflexivity. Qed.

(** C6, as the code behaves: the matrix of two parts in contact is
    symmetric, 0/1 and has unit diagonal, and its computed density is
    2, outside the interval from 0 to 1. *)
Theorem density_of_two_touching_parts_is_two :
  ∃ props,
    analyze_contact_matrix_properties [[1; 1]; [1; 1]] = Py.Return props ∧
    (contact_density props == 2)%Q ∧
    ¬ (contact_density props <= 1)%Q.
Proof.
  eexists. split; [reflexivity|]. split; [reflexivity|]. simpl.
  intros H. apply Qle_bool_iff in H. discriminate H.
Qed.

(** The part of C6 that holds: with fewer than two parts the density
    returned is 0. *)
Lemma density_zero_below_two_parts (contact_matrix : np.ndarray) props :
  (length contact_matrix ≤ 1)%nat →
  analyze_contact_matrix_properties contact_matrix = Py.Return props →
  contact_density props = 0%Q.
Proof.
  intros Hn. unfold analyze_contact_matrix_properties, np.shape0.
  replace (0 <? _) with false.
  2: { destruct contact_matrix as [|r [|r' cm]]; simpl in *; (done || lia). }
  destruct (np.max _); simpl; [|done].
  destruct (np.min _); simpl; [|done].
  by intros [= <-].
Qed.

(** [print_contact_summary] prints the same total, and for fewer than
    two parts divides by zero. *)
Lemma print_contact_summary_single_part :
  print_contact_summary_figures
    {| tolerance := 1 # 1000; parts := [0%nat];
       contact_matrix := Some [[1]]; part_names := ["Part_0"] |}
  = Some (0, None).
Proof. reflexivity. Qed.

(** ** The assertions of [test.py] *)

(** [test_synthetic_data]: 3 parts, 3 contacts, density 1. *)
Example test_synthetic_data :
  ∃ props,
    analyze_contact_matrix_properties [[1; 1; 0]; [1; 1; 1]; [0; 1; 1]]
      = Py.Return props ∧
    n_parts props = 3 ∧ total_contacts props = 3 ∧
    (contact_density props == 1)%Q.
Proof. eexists. repeat split; reflexivity. Qed.

(** [test_utilities]: 4 parts, 5 contacts. *)
Example test_utilities :
  ∃ props,
    analyze_contact_matrix_properties
      [[1; 1; 1; 0]; [1; 1; 0; 1]; [1; 0; 1; 0]; [0; 1; 0; 1]]
      = Py.Return props ∧
    total_contacts props = 5 ∧ n_parts props = 4.
Proof. eexists. repeat split; reflexivity. Qed.

(** [test_graph_creation]: 3 nodes, 2 edges. *)
Example test_graph_creation :
  ∃ G, get_contact_graph Scenario.chain_computed = Py.Return G ∧
       nx.number_of_nodes G = 3%nat ∧ nx.number_of_edges G = 2%nat.
Proof. eexists. split; [reflexivity|]. split; vm_compute; reflexivity. Qed.

(** The chain of three parts: the matrix computed from the distances
    is the one the tests use. *)
Example compute_chain_matrix :
  ∃ self',
    compute_contact_matrix Scenario.distances Scenario.chain
      = Py.Return (Scenario.chain_matrix, self') ∧
    contact_matrix self' = Some Scenario.chain_matrix.
Proof. eexists. split; reflexivity. Qed.

(** Four isolated parts and four parts all in contact: the statistics
    count half the diagonal as contacts (2 and 8 where the graphs have
    0 and 6 edges), so the densities are 1/3 and 4/3. *)
Example statistics_of_isolated_and_full :
  ∃ isolated full,
    analyze_contact_matrix_properties
      [[1; 0; 0; 0]; [0; 1; 0; 0]; [0; 0; 1; 0]; [0; 0; 0; 1]]
      = Py.Return isolated ∧
    analyze_contact_matrix_properties
      [[1; 1; 1; 1]; [1; 1; 1; 1]; [1; 1; 1; 1]; [1; 1; 1; 1]]
      = Py.Return full ∧
    total_contacts isolated = 2 ∧ (contact_density isolated == 1 # 3)%Q ∧
    isolated_parts isolated = 4 ∧
    total_contacts full = 8 ∧ (contact_density full == 4 # 3)%Q.
Proof. eexists _, _. repeat split; reflexivity. Qed.

(** ** The contact graph *)

Lemma touch_spec G w :
  graph_wf G →
  graph_wf (nx.touch G w) ∧
  is_Some (nx._node (nx.touch G w) !! w) ∧
  (∀ u, is_Some (nx._node G !! u) → is_Some (nx._node (nx.touch G w) !! u)) ∧
  ∀ u, nx.neighbours (nx.touch G w) u = nx.neighbours G u.
Proof.
  intros Hwf. unfold nx.touch.
  destruct (nx._node G !! w) eqn:E; [by eauto|]. simpl.
  assert (nx._adj G !! w = None) as Ew.
  { destruct (nx._adj G !! w) eqn:E'; [|done].
    destruct (Hwf w) as [? ?]; [by eauto | congruence]. }
  split; [|split; [|split]].
  - intros u. simpl. destruct (decide (w = u)) as [->|Hne].
    + rewrite !lookup_insert_eq. eauto.
    + rewrite !lookup_insert_ne by done. apply Hwf.
  - rewrite lookup_insert_eq. eauto.
  - intros u Hu. destruct (decide (w = u)) as [->|Hne].
    + rewrite lookup_insert_eq. eauto.
    + by rewrite lookup_insert_ne.
  - intros u. unfold nx.neighbours. simpl.
    destruct (decide (w = u)) as [->|Hne].
    + rewrite lookup_insert_eq. by rewrite Ew.
    + by rewrite lookup_insert_ne.
Qed.

Lemma add_node_spec G k name :
  graph_wf G →
  graph_wf (nx.add_node G k name) ∧
  ∀ u, nx.neighbours (nx.add_node G k name) u = nx.neighbours G u.
Proof.
  intros Hwf. unfold nx.add_node.
  destruct (nx._node G !! k) eqn:E; simpl.
  - split; [|done]. intros u Hu. simpl in *.
    destruct (decide (k = u)) as [->|Hne].
    + rewrite lookup_insert_eq. eauto.
    + rewrite lookup_insert_ne by done. by apply Hwf.
  - assert (nx._adj G !! k = None) as Ek.
    { destruct (nx._adj G !! k) eqn:E'; [|done].
      destruct (Hwf k) as [? ?]; [by eauto | congruence]. }
    split.
    + intros u. simpl. destruct (decide (k = u)) as [->|Hne].
      * rewrite !lookup_insert_eq. eauto.
      * rewrite !lookup_insert_ne by done. apply Hwf.
    + intros u. unfold nx.neighbours. simpl.
      destruct (decide (k = u)) as [->|Hne].
      * rewrite lookup_insert_eq. by rewrite Ek.
      * by rewrite lookup_insert_ne.
Qed.

Lemma add_edge_spec G a b :
  graph_wf G →
  graph_wf (nx.add_edge G a b) ∧
  ∀ u v, v ∈ nx.neighbours (nx.add_edge G a b) u ↔
         v ∈ nx.neighbours G u ∨ (u = a ∧ v = b) ∨ (u = b ∧ v = a).
Proof.
  intros Hwf.
  destruct (touch_spec G a Hwf) as (Hwf1 & Ha1 & Hmono1 & Hn1).
  destruct (touch_spec (nx.touch G a) b Hwf1) as (Hwf2 & Hb2 & Hmono2 & Hn2).
  unfold nx.add_edge. set (G1 := nx.touch (nx.touch G a) b) in *.
  split.
  - intros w. simpl.
    destruct (decide (b = w)) as [->|Hb]; [done|].
    rewrite lookup_insert_ne by done.
    destruct (decide (a = w)) as [->|Ha]; [by auto|].
    rewrite lookup_insert_ne by done. apply Hwf2.
  - intros u v. unfold nx.neighbours at 1. simpl.
    rewrite <- (Hn1 u), <- (Hn2 u). fold G1.
    destruct (decide (b = u)) as [->|Hb].
    + rewrite lookup_insert_eq. simpl.
      destruct (decide (a = u)) as [->|Ha].
      * rewrite lookup_insert_eq. simpl.
        rewrite !elem_of_union, !elem_of_singleton. tauto.
      * rewrite lookup_insert_ne by done. fold (nx.neighbours G1 u).
        rewrite !elem_of_union, !elem_of_singleton. intuition congruence.
    + rewrite lookup_insert_ne by done.
      destruct (decide (a = u)) as [->|Ha].
      * rewrite lookup_insert_eq. simpl.
        rewrite !elem_of_union, !elem_of_singleton. intuition congruence.
      * rewrite lookup_insert_ne by done. fold (nx.neighbours G1 u).
        intuition congruence.
Qed.

Lemma getitem2_entry n (cm : np.ndarray) i j :
  np.square n cm → (i < n)%nat → (j < n)%nat →
  np.getitem2 cm i j = Py.Return (np.entry cm i j).
Proof.
  intros [Hlen Hrows] Hi Hj. unfold np.getitem2, np.entry, Py.getitem.
  destruct (cm !! i) as [row|] eqn:Ei.
  2: { apply lookup_ge_None in Ei. lia. }
  simpl. pose proof (Hrows _ _ Ei) as Hrow.
  destruct (row !! j) as [x|] eqn:Ej; [done|].
  apply lookup_ge_None in Ej. lia.
Qed.

Lemma visited_step i j a b :
  (i < j)%nat →
  visited i (j + 1) a b = visited i j a b || ((a =? i)%nat && (b =? j)%nat).
Proof.
  intros Hij. unfold visited.
  destruct (Nat.ltb_spec a b), (Nat.ltb_spec a i), (Nat.eqb_spec a i),
    (Nat.ltb_spec b j), (Nat.ltb_spec b (j + 1)), (Nat.eqb_spec b j);
    simpl; (done || lia).
Qed.

Lemma add_nodes_no_edges (names : list (nat * string)) : ∀ G,
  graph_wf G → (∀ u, nx.neighbours G u = ∅) →
  graph_wf (foldl (fun G '(i, name) => nx.add_node G i name) G names) ∧
  ∀ u, nx.neighbours
         (foldl (fun G '(i, name) => nx.add_node G i name) G names) u = ∅.
Proof.
  induction names as [|[k name] names IH]; intros G Hwf Hn; simpl; [done|].
  destruct (add_node_spec G k name Hwf) as [Hwf' Hn'].
  apply IH; [done|]. intros u. by rewrite Hn'.
Qed.

Section Contact_graph.

Context {Solid : Type}.
Variable self : STEPContactAnalyzer Solid.
Variable cm : np.ndarray.
Hypothesis Hsquare : np.square (length (parts self)) cm.

Let n := length (parts self).

Lemma graph_step_so_far i j G :
  (i < j)%nat → (j < n)%nat → graph_so_far self cm i j G →
  ∃ G', graph_step cm i j G = Py.Return G' ∧
        graph_so_far self cm i (j + 1) G'.
Proof.
  intros Hij Hj [Hwf Hedges]. unfold graph_step.
  rewrite (getitem2_entry n) by (done || lia). simpl.
  destruct (Z.eqb_spec (np.entry cm i j) 1) as [E|E].
  - destruct (add_edge_spec G i j Hwf) as [Hwf' Hn'].
    eexists; split; [reflexivity|]. split; [done|].
    intros u v. rewrite Hn', Hedges, visited_step by done. fold n.
    destruct (Nat.eqb_spec (u `min` v) i), (Nat.eqb_spec (u `max` v) j);
      simpl; rewrite ?orb_false_r, ?orb_true_r; [|intuition lia..].
    split.
    + intros _. replace (u `min` v)%nat with i by done.
      replace (u `max` v)%nat with j by done.
      split; [lia|]. split; [lia|]. done.
    + intros _. right. lia.
  - eexists; split; [reflexivity|]. split; [done|].
    intros u v. rewrite Hedges, visited_step by done. fold n.
    destruct (Nat.eqb_spec (u `min` v) i), (Nat.eqb_spec (u `max` v) j);
      simpl; rewrite ?orb_false_r, ?orb_true_r; [|done..].
    replace (u `min` v)%nat with i by done.
    replace (u `max` v)%nat with j by done. tauto.
Qed.

Lemma graph_inner_loop i G :
  (i < n)%nat → graph_so_far self cm i (i + 1) G →
  ∃ G', Py.for_ (Py.range (i + 1) n) (graph_step cm i) G = Py.Return G' ∧
        graph_so_far self cm (i + 1) (i + 1 + 1) G'.
Proof.
  intros Hi HG.
  destruct (for_range_invariant
              (fun j G => (i < j)%nat ∧ graph_so_far self cm i j G)
              (graph_step cm i) n) with
    (d := (n - (i + 1))%nat) (lo := (i + 1)%nat) (s := G)
    as (G' & E & _ & Hwf & Hedges).
  - intros j s Hj [Hij Hs].
    destruct (graph_step_so_far i j s) as (s' & ? & ?); [done..|].
    exists s'. split; [done|]. split; [lia | done].
  - lia.
  - split; [lia | done].
  - exists G'. split; [done|]. split; [done|].
    intros u v. rewrite Hedges. fold n.
    split; intros (Hu & Hv & Hvis & Hent); (split; [done|]; split; [done|]);
      (split; [|done]).
    + rewrite <- (visited_next_row self) by (fold n; lia). done.
    + rewrite (visited_next_row self) by (fold n; lia). done.
Qed.

(** [get_contact_graph] on a computed matrix returns a graph whose
    edges are the pairs of distinct parts with a 1 in the upper
    triangle of the matrix, whatever the part names are. *)
Lemma get_contact_graph_edges :
  contact_matrix self = Some cm →
  ∃ G, get_contact_graph self = Py.Return G ∧
       ∀ u v, nx.has_edge G u v = true ↔
              u ≠ v ∧ (u < n)%nat ∧ (v < n)%nat ∧
              np.entry cm (u `min` v) (u `max` v) = 1.
Proof.
  intros Hcm. unfold get_contact_graph. rewrite Hcm. fold n.
  destruct (add_nodes_no_edges (Py.enumerate (part_names self)) nx.empty)
    as [Hwf0 Hn0]; [by intros w [? ?] | done |].
  destruct (for_range_invariant
              (fun i G => graph_so_far self cm i (i + 1) G)
              (fun i G => Py.for_ (Py.range (i + 1) n) (graph_step cm i) G) n)
    with (d := n) (lo := 0%nat)
         (s := foldl (fun G '(i, name) => nx.add_node G i name) nx.empty
                 (Py.enumerate (part_names self)))
    as (G & E & Hwf & Hedges).
  - intros i s Hi Hs. by apply graph_inner_loop.
  - lia.
  - split; [done|]. intros u v. rewrite Hn0. unfold visited.
    split; [by intros ?%not_elem_of_empty|].
    intros (_ & _ & Hvis & _).
    destruct (Nat.ltb_spec (u `min` v) (u `max` v)); simpl in Hvis; [|done].
    destruct (Nat.eqb_spec (u `min` v) 0); simpl in Hvis; [|done].
    destruct (Nat.ltb_spec (u `max` v) 1); simpl in Hvis; [lia | done].
  - exists G. split; [done|]. intros u v.
    unfold nx.has_edge. rewrite bool_decide_eq_true, Hedges. fold n.
    unfold visited.
    destruct (Nat.ltb_spec (u `min` v) (u `max` v)),
      (Nat.ltb_spec (u `min` v) n); simpl; intuition (done || lia).
Qed.

End Contact_graph.




(** ** CSV export and import *)

(** C9, as the code behaves: the exporter writes the file with
    [newline=''], the importer opens it without, so a carriage return
    inside a part name is read back as a line feed: exporting the 1 by
    1 matrix with the part name [a<CR>b] and loading the file gives the
    matrix back, and the name [a<LF>b]. *)
Theorem csv_round_trip_loses_carriage_return :
  ∃ contents,
    export_contact_matrix_csv [[1]] [Scenario.name_with_cr]
      = Py.Return contents ∧
    load_contact_matrix_csv contents
      = Py.Return ([[1]], [String "a" (String LF (String "b" EmptyString))]) ∧
    load_contact_matrix_csv contents
      ≠ Py.Return ([[1]], [Scenario.name_with_cr]).
Proof.
  eexists. split; [reflexivity|]. split; [reflexivity|].
  intros H. discriminate H.
Qed.

(** *** Lines of a text *)

Lemma lines_split_first c rest :
  io.lines (String c rest) =
  let '(l, ls) := split_first_line (String c rest) in l :: ls.
Proof.
  revert c. induction rest as [|c' rest IH]; intros c; simpl.
  - by destruct (Ascii.eqb c LF).
  - destruct (Ascii.eqb c LF); [done|].
    specialize (IH c'). simpl in IH. rewrite IH.
    by destruct (Ascii.eqb c' LF); [|destruct (split_first_line rest)].
Qed.

Lemma reader_lines_mid c rest self :
  csv.reader (io.lines (String c rest)) self = reader_mid (String c rest) self.
Proof.
  unfold reader_mid. rewrite lines_split_first.
  by destruct (split_first_line (String c rest)).
Qed.

Lemma reader_lines_nonempty s self :
  s ≠ EmptyString → csv.reader (io.lines s) self = reader_mid s self.
Proof. destruct s; [done|]. intros _. apply reader_lines_mid. Qed.

(** A character other than a line feed is given to the parser and the
    line goes on. *)
Lemma reader_mid_char c rest self :
  c ≠ LF →
  reader_mid (String c rest) self =
  self' ← csv.parse_process_char self (Some c); reader_mid rest self'.
Proof.
  intros Hc. unfold reader_mid. simpl.
  destruct (Ascii.eqb_spec c LF) as [|_]; [done|].
  destruct (split_first_line rest) as [l ls]. simpl.
  destruct (csv.parse_process_char self (Some c)); reflexivity.
Qed.

(** A line feed ends the line: the record is complete if the parser is
    back at [START_RECORD]. *)
Lemma reader_mid_LF rest self :
  reader_mid (String LF rest) self =
  self1 ← csv.parse_process_char self (Some LF);
  self2 ← csv.parse_process_char self1 None;
  match csv.state self2 with
  | csv.START_RECORD =>
      rows ← csv.reader (io.lines rest) csv.parse_reset;
      Py.Return (csv.fields self2 :: rows)
  | _ => csv.reader (io.lines rest) self2
  end.
Proof.
  unfold reader_mid. simpl.
  destruct (csv.parse_process_char self (Some LF)) as [self1|]; [|done].
  simpl. destruct (csv.parse_process_char self1 None); reflexivity.
Qed.

(** *** Strings *)

Lemma string_app_cons c (s t : string) : String c s +:+ t = String c (s +:+ t).
Proof. reflexivity. Qed.

Lemma string_app_nil_l (t : string) : EmptyString +:+ t = t.
Proof. reflexivity. Qed.

Ltac string_simpl :=
  repeat (rewrite string_app_cons || rewrite string_app_nil_l).

Lemma string_app_nil_r (s : string) : s +:+ EmptyString = s.
Proof. induction s as [|c s IH]; string_simpl; [done | by rewrite IH]. Qed.

Lemma string_app_assoc (s1 s2 s3 : string) :
  (s1 +:+ s2) +:+ s3 = s1 +:+ (s2 +:+ s3).
Proof. induction s1 as [|c s1 IH]; string_simpl; [done | by rewrite IH]. Qed.

Lemma string_app_snoc (g : string) (c : ascii) (f : string) :
  (g +:+ String c EmptyString) +:+ f = g +:+ String c f.
Proof. rewrite string_app_assoc. by string_simpl. Qed.

Lemma needs_quotes_false c :
  csv.needs_quotes c = false →
  Ascii.eqb c csv.delimiter = false ∧ Ascii.eqb c csv.quotechar = false ∧
  Ascii.eqb c CR = false ∧ Ascii.eqb c LF = false.
Proof.
  unfold csv.needs_quotes. intros H.
  repeat (apply orb_false_iff in H as [H ?]). done.
Qed.

Lemma join_append_data_plain f :
  csv.join_append_data f = (f, false) ↔ plain f = true.
Proof.
  induction f as [|c f IH]; simpl; [done|].
  destruct (csv.join_append_data f) as [copied quoted].
  destruct (csv.needs_quotes c); simpl.
  - split; [|done]. by destruct (Ascii.eqb c csv.quotechar).
  - rewrite <- IH. split; [by intros [= -> ->] | by intros [= -> ->]].
Qed.

Lemma join_append_data_quoted f :
  snd (csv.join_append_data f) = negb (plain f).
Proof.
  induction f as [|c f IH]; simpl; [done|].
  destruct (csv.join_append_data f) as [copied quoted]. simpl in IH.
  by destruct (csv.needs_quotes c).
Qed.

(** *** The parser on the text of one field *)

Lemma EOL_ne_LF_helper c : Ascii.eqb c LF = false → c ≠ LF.
Proof. intros H ->. by rewrite Ascii.eqb_refl in H. Qed.

(** Unquoted text: every character is added to the field. *)
Lemma reader_mid_plain f g acc t :
  plain f = true →
  reader_mid (f +:+ t)
    {| csv.state := csv.IN_FIELD; csv.fields := acc; csv.field := g |}
  = reader_mid t
      {| csv.state := csv.IN_FIELD; csv.fields := acc;
         csv.field := g +:+ f |}.
Proof.
  revert g. induction f as [|c f IH]; intros g Hf; string_simpl.
  - by rewrite string_app_nil_r.
  - simpl in Hf. apply andb_true_iff in Hf as [Hc Hf].
    apply negb_true_iff, needs_quotes_false in Hc as (Hd & Hq & Hcr & Hlf).
    rewrite reader_mid_char by by apply EOL_ne_LF_helper.
    unfold csv.parse_process_char. simpl.
    unfold csv.is_newline. rewrite Hlf, Hcr, Hd. simpl.
    unfold csv.parse_add_char. simpl.
    rewrite IH by done. by rewrite string_app_snoc.
Qed.

(** Quoted text: a doubled quote adds one quote, a line feed is added
    and the field goes on over the line end; the rest is added as it
    is. *)
Lemma reader_mid_quoted f g acc t :
  cr_free f = true → t ≠ EmptyString →
  reader_mid (fst (csv.join_append_data f) +:+ t)
    {| csv.state := csv.IN_QUOTED_FIELD; csv.fields := acc; csv.field := g |}
  = reader_mid t
      {| csv.state := csv.IN_QUOTED_FIELD; csv.fields := acc;
         csv.field := g +:+ f |}.
Proof.
  intros Hf Ht. revert g Hf.
  induction f as [|c f IH]; intros g Hf; simpl.
  - string_simpl. by rewrite string_app_nil_r.
  - simpl in Hf. apply andb_true_iff in Hf as [Hcr Hf].
    apply negb_true_iff in Hcr.
    destruct (csv.join_append_data f) as [copied quoted] eqn:E.
    simpl in IH.
    assert (copied +:+ t ≠ EmptyString) as Hne.
    { destruct copied; string_simpl; [done | discriminate]. }
    destruct (Ascii.eqb_spec c csv.quotechar) as [->|Hq].
    + replace (csv.needs_quotes csv.quotechar) with true by done. simpl.
      string_simpl. rewrite reader_mid_char by done.
      unfold csv.parse_process_char at 1. simpl.
      rewrite reader_mid_char by done.
      unfold csv.parse_process_char at 1. simpl.
      unfold csv.parse_add_char, csv.set_state. simpl.
      rewrite IH by done. by rewrite string_app_snoc.
    + destruct (Ascii.eqb_spec c LF) as [->|Hlf].
      * replace (csv.needs_quotes LF) with true by done. simpl.
        string_simpl. rewrite reader_mid_LF. simpl.
        rewrite reader_lines_nonempty by done.
        unfold csv.parse_add_char. simpl.
        rewrite IH by done. by rewrite string_app_snoc.
      * assert ((if csv.needs_quotes c
                 then (String c copied, true)
                 else (String c copied, quoted)).1 = String c copied) as ->
          by by destruct (csv.needs_quotes c).
        simpl. string_simpl. rewrite reader_mid_char by done.
        unfold csv.parse_process_char. simpl.
        destruct (Ascii.eqb_spec c csv.quotechar); [done|].
        unfold csv.parse_add_char. simpl.
        rewrite IH by done. by rewrite string_app_snoc.
Qed.

Lemma join_append_plain f : plain f = true → csv.join_append f false = f.
Proof.
  intros Hf. unfold csv.join_append.
  apply join_append_data_plain in Hf. by rewrite Hf.
Qed.

Lemma join_append_not_plain f :
  plain f = false →
  csv.join_append f false =
  String csv.quotechar
    (fst (csv.join_append_data f) +:+ String csv.quotechar EmptyString).
Proof.
  intros Hf. unfold csv.join_append.
  pose proof (join_append_data_quoted f) as Hq. rewrite Hf in Hq.
  destruct (csv.join_append_data f) as [copied quoted]. simpl in *.
  by rewrite Hq.
Qed.

Lemma reader_mid_field st acc f t :
  st = csv.START_RECORD ∨ st = csv.START_FIELD →
  cr_free f = true → t ≠ EmptyString →
  reader_mid (csv.join_append f false +:+ t)
    {| csv.state := st; csv.fields := acc; csv.field := EmptyString |}
  = reader_mid t (field_done st acc f).
Proof.
  intros Hst Hcr Ht. unfold field_done.
  destruct (plain f) eqn:Hf.
  - rewrite join_append_plain by done.
    destruct f as [|c f]; [done|]. string_simpl.
    simpl in Hf. apply andb_true_iff in Hf as [Hc Hf].
    apply negb_true_iff, needs_quotes_false in Hc as (Hd & Hq & Hc & Hlf).
    rewrite reader_mid_char by by apply EOL_ne_LF_helper.
    assert (csv.parse_process_char
              {| csv.state := st; csv.fields := acc; csv.field := EmptyString |}
              (Some c)
            = Py.Return {| csv.state := csv.IN_FIELD; csv.fields := acc;
                           csv.field := String c EmptyString |}) as ->.
    { unfold csv.parse_process_char, csv.parse_start_field, csv.is_newline.
      destruct Hst as [-> | ->]; simpl; by rewrite Hlf, Hc, ?Hq, ?Hd. }
    simpl. by rewrite reader_mid_plain by done.
  - rewrite join_append_not_plain by done. string_simpl.
    rewrite reader_mid_char by done.
    assert (csv.parse_process_char
              {| csv.state := st; csv.fields := acc; csv.field := EmptyString |}
              (Some csv.quotechar)
            = Py.Return {| csv.state := csv.IN_QUOTED_FIELD; csv.fields := acc;
                           csv.field := EmptyString |}) as ->.
    { by destruct Hst as [-> | ->]. }
    simpl. rewrite string_app_assoc.
    rewrite reader_mid_quoted by done. string_simpl.
    by rewrite reader_mid_char by done.
Qed.

(** After a field, the delimiter stores it and opens the next one. *)
Lemma reader_mid_delimiter st acc f t :
  st = csv.START_RECORD ∨ st = csv.START_FIELD →
  reader_mid (String csv.delimiter t) (field_done st acc f)
  = reader_mid t {| csv.state := csv.START_FIELD; csv.fields := acc ++ [f];
                    csv.field := EmptyString |}.
Proof.
  intros Hst. rewrite reader_mid_char by done. unfold field_done.
  destruct (plain f); [destruct f|]; [destruct Hst as [-> | ->]|..]; done.
Qed.

(** After the last field, the line feed stores it and completes the
    record, unless nothing at all was read. *)
Lemma reader_mid_record_end st acc f rest :
  st = csv.START_FIELD ∨
    (st = csv.START_RECORD ∧ csv.join_append f false ≠ EmptyString) →
  reader_mid (String LF rest) (field_done st acc f)
  = (rows ← csv.reader (io.lines rest) csv.parse_reset;
     Py.Return ((acc ++ [f]) :: rows)).
Proof.
  intros Hst. rewrite reader_mid_LF. unfold field_done.
  destruct (plain f) eqn:Hf; [destruct f|]; [|done..].
  destruct Hst as [-> | [-> Hne]]; [done|].
  by rewrite join_append_plain in Hne.
Qed.

(** *** The parser on the text of one record *)

Lemma reader_mid_fields fs : ∀ st acc rest,
  fs ≠ [] → all_cr_free fs = true →
  st = csv.START_FIELD ∨
    (st = csv.START_RECORD ∧ csv.join fs ≠ EmptyString) →
  reader_mid (csv.join fs +:+ String LF rest)
    {| csv.state := st; csv.fields := acc; csv.field := EmptyString |}
  = (rows ← csv.reader (io.lines rest) csv.parse_reset;
     Py.Return ((acc ++ fs) :: rows)).
Proof.
  induction fs as [|f fs IH]; intros st acc rest Hne Hcr Hst; [done|].
  simpl in Hcr. apply andb_true_iff in Hcr as [Hf Hfs].
  assert (st = csv.START_RECORD ∨ st = csv.START_FIELD) as Hst' by tauto.
  destruct fs as [|f2 fs].
  - simpl. rewrite reader_mid_field by done.
    by rewrite reader_mid_record_end.
  - change (csv.join (f :: f2 :: fs))
      with (csv.join_append f false
            +:+ String csv.delimiter (csv.join (f2 :: fs))).
    rewrite string_app_assoc. string_simpl.
    rewrite reader_mid_field by done.
    rewrite reader_mid_delimiter by done.
    rewrite IH by (done || auto).
    by rewrite <- app_assoc.
Qed.

Lemma writerow_record_text row :
  csv.writerow row = record_text (map csv.str row) +:+ csv.lineterminator.
Proof. unfold csv.writerow, record_text. by rewrite length_map. Qed.

Lemma join_append_empty f :
  csv.join_append f false = EmptyString → f = EmptyString.
Proof.
  destruct (plain f) eqn:Hf.
  - by rewrite join_append_plain.
  - by rewrite join_append_not_plain.
Qed.

Lemma join_empty fs :
  fs ≠ [] → csv.join fs = EmptyString → fs = [EmptyString].
Proof.
  destruct fs as [|f [|f2 fs]]; [done| |].
  - intros _ H. by rewrite (join_append_empty f H).
  - intros _. change (csv.join (f :: f2 :: fs))
      with (csv.join_append f false
            +:+ String csv.delimiter (csv.join (f2 :: fs))).
    by destruct (csv.join_append f false).
Qed.

Lemma reader_mid_record fs rest :
  fs ≠ [] → all_cr_free fs = true →
  reader_mid (record_text fs +:+ String LF rest) csv.parse_reset
  = (rows ← csv.reader (io.lines rest) csv.parse_reset;
     Py.Return (fs :: rows)).
Proof.
  intros Hne Hcr. unfold record_text.
  destruct (String.eqb_spec (csv.join fs) EmptyString) as [E|E].
  - rewrite (join_empty fs Hne E).
    change (negb (length [EmptyString] =? 0)%nat && true) with true.
    cbv iota. unfold csv.join_append. simpl. string_simpl.
    rewrite reader_mid_char by done. simpl.
    rewrite reader_mid_char by done. simpl.
    by rewrite reader_mid_LF.
  - rewrite andb_false_r.
    by rewrite (reader_mid_fields fs csv.START_RECORD []) by auto.
Qed.

(** *** Universal newlines on the exported text *)

Lemma cr_free_app s t : cr_free (s +:+ t) = cr_free s && cr_free t.
Proof.
  induction s as [|c s IH]; string_simpl; simpl; [done|].
  by rewrite IH, andb_assoc.
Qed.

Lemma cr_free_join_append_data f :
  cr_free f = true → cr_free (fst (csv.join_append_data f)) = true.
Proof.
  induction f as [|c f IH]; simpl; [done|].
  intros [Hc Hf]%andb_true_iff. specialize (IH Hf).
  destruct (csv.join_append_data f) as [copied quoted]. simpl in IH.
  destruct (csv.needs_quotes c); [destruct (Ascii.eqb_spec c csv.quotechar)|];
    simpl; rewrite ?Hc, ?IH; subst; done.
Qed.

Lemma cr_free_join_append f q :
  cr_free f = true → cr_free (csv.join_append f q) = true.
Proof.
  intros Hf. unfold csv.join_append.
  pose proof (cr_free_join_append_data f Hf) as H.
  destruct (csv.join_append_data f) as [copied quoted]. simpl in H.
  destruct (q || quoted); [|done].
  simpl. rewrite cr_free_app, H. done.
Qed.

Lemma cr_free_join fs : all_cr_free fs = true → cr_free (csv.join fs) = true.
Proof.
  induction fs as [|f fs IH]; [done|].
  simpl. intros [Hf Hfs]%andb_true_iff.
  destruct fs as [|f2 fs]; [by apply cr_free_join_append|].
  rewrite cr_free_app, cr_free_join_append by done.
  simpl. by apply IH.
Qed.

Lemma cr_free_record_text fs :
  all_cr_free fs = true → cr_free (record_text fs) = true.
Proof.
  intros H. unfold record_text.
  destruct (_ && _); [done | by apply cr_free_join].
Qed.

Lemma universal_newlines_cr_free s rest :
  cr_free s = true →
  io.universal_newlines false (s +:+ String CR (String LF rest))
  = s +:+ String LF (io.universal_newlines false rest).
Proof.
  induction s as [|c s IH]; string_simpl; simpl.
  - done.
  - intros [Hc Hs]%andb_true_iff. apply negb_true_iff in Hc. rewrite Hc.
    destruct (Ascii.eqb_spec c LF) as [->|]; by rewrite IH.
Qed.

(** *** The reader on an exported file *)

Lemma reader_file_text rows :
  forallb row_ok rows = true →
  csv.reader (io.read_lines (file_text rows)) csv.parse_reset
  = Py.Return (map (map csv.str) rows).
Proof.
  unfold io.read_lines.
  induction rows as [|row rows IH]; [done|].
  simpl. intros [Hrow Hrows]%andb_true_iff.
  apply andb_true_iff in Hrow as [Hlen Hcr].
  rewrite writerow_record_text. unfold csv.lineterminator.
  rewrite string_app_assoc. string_simpl.
  rewrite universal_newlines_cr_free by by apply cr_free_record_text.
  rewrite reader_lines_nonempty.
  2: { by destruct (record_text (map csv.str row)). }
  rewrite reader_mid_record; [| by destruct row | done].
  by rewrite IH.
Qed.

(** *** Integers written and read back *)

Lemma digit_value_pretty_N_char d :
  (d < 10)%N → digit_value (pretty_N_char d) = Some (Z.of_N d).
Proof.
  intros H.
  assert (d = 0 ∨ d = 1 ∨ d = 2 ∨ d = 3 ∨ d = 4 ∨ d = 5 ∨ d = 6 ∨ d = 7
          ∨ d = 8 ∨ d = 9)%N as Hd by lia.
  repeat destruct Hd as [->|Hd]; try subst d; reflexivity.
Qed.

Lemma pretty_N_char_plain d :
  csv.needs_quotes (pretty_N_char d) = false ∧
  Ascii.eqb (pretty_N_char d) "-" = false ∧
  Ascii.eqb (pretty_N_char d) "+" = false.
Proof. unfold pretty_N_char. by repeat case_match. Qed.

Lemma int_digits_pretty_N_go x : ∀ s,
  ∃ p, ∀ a, int_digits (pretty_N_go x s) a = int_digits s (a * p + Z.of_N x).
Proof.
  induction (N.lt_wf_0 x) as [x _ IH]. intros s.
  destruct (decide (x = 0)%N) as [->|Hx].
  - exists 1. intros a. rewrite pretty_N_go_0. f_equal. lia.
  - rewrite pretty_N_go_step by lia.
    destruct (IH (x `div` 10)%N) with
      (s := String (pretty_N_char (x `mod` 10)) s) as [p Hp].
    { apply N.div_lt; lia. }
    exists (10 * p). intros a. rewrite Hp. simpl.
    rewrite digit_value_pretty_N_char by (apply N.mod_lt; lia).
    f_equal. rewrite (N.div_mod x 10) at 3 by lia.
    rewrite N2Z.inj_add, N2Z.inj_mul. simpl. lia.
Qed.

Lemma pretty_N_go_head x s :
  (0 < x)%N → ∃ d rest, pretty_N_go x s = String (pretty_N_char d) rest.
Proof.
  revert s. induction (N.lt_wf_0 x) as [x _ IH]. intros s Hx.
  rewrite pretty_N_go_step by done.
  destruct (decide (x `div` 10 = 0)%N) as [->|Hd].
  - rewrite pretty_N_go_0. eauto.
  - apply IH; [apply N.div_lt; lia | by apply N.neq_0_lt_0].
Qed.

Lemma pretty_N_go_plain x : ∀ s, plain (pretty_N_go x s) = plain s.
Proof.
  induction (N.lt_wf_0 x) as [x _ IH]. intros s.
  destruct (decide (x = 0)%N) as [->|Hx]; [by rewrite pretty_N_go_0|].
  rewrite pretty_N_go_step by lia. rewrite IH by (apply N.div_lt; lia).
  simpl. by rewrite (proj1 (pretty_N_char_plain _)).
Qed.

Lemma plain_cr_free s : plain s = true → cr_free s = true.
Proof.
  induction s as [|c s IH]; simpl; [done|].
  intros [Hc Hs]%andb_true_iff.
  apply negb_true_iff, needs_quotes_false in Hc as (_ & _ & -> & _).
  by rewrite IH.
Qed.

Lemma int_literal_pretty_pos p :
  int_literal (pretty (Npos p)) = Some (Zpos p) ∧
  ∃ d rest, pretty (Npos p) = String (pretty_N_char d) rest.
Proof.
  unfold pretty, pretty_N. rewrite decide_False by done.
  destruct (pretty_N_go_head (Npos p) EmptyString) as (d & rest & E); [lia|].
  split; [|eauto].
  unfold int_literal. rewrite E at 1. cbv iota.
  destruct (int_digits_pretty_N_go (Npos p) EmptyString) as [q ->].
  reflexivity.
Qed.

Lemma int_pretty (z : Z) : int (pretty z) = Py.Return z.
Proof.
  destruct z as [|p|p]; [done | |].
  - change (pretty (Zpos p)) with (pretty (Npos p)).
    destruct (int_literal_pretty_pos p) as (H & d & rest & E).
    unfold int. rewrite E at 1. cbv iota.
    destruct (pretty_N_char_plain d) as (_ & -> & ->).
    by rewrite H.
  - change (pretty (Zneg p)) with (String "-" (pretty (Npos p))).
    destruct (int_literal_pretty_pos p) as (H & _).
    unfold int. rewrite Ascii.eqb_refl. by rewrite H.
Qed.

Lemma plain_pretty (z : Z) : plain (pretty z) = true.
Proof.
  destruct z as [|p|p]; [done | |].
  - unfold pretty, pretty_Z, pretty, pretty_positive, pretty, pretty_N.
    rewrite decide_False by done. by rewrite pretty_N_go_plain.
  - unfold pretty, pretty_Z, pretty, pretty_positive, pretty, pretty_N.
    rewrite decide_False by done. string_simpl. simpl.
    by rewrite pretty_N_go_plain.
Qed.

(** *** Export, then import *)

Lemma export_loop (contact_matrix : np.ndarray) part_names : ∀ off csvfile,
  (off + length part_names ≤ length contact_matrix)%nat →
  Py.for_ (imap (fun k part_name => ((off + k)%nat, part_name)) part_names)
    (fun '(i, part_name) csvfile =>
       matrix_row ← Py.getitem contact_matrix i;
       let row := csv.Str part_name :: map csv.Int matrix_row in
       Py.Return (csvfile +:+ csv.writerow row))
    csvfile
  = Py.Return
      (csvfile +:+ file_text (matrix_rows part_names (drop off contact_matrix))).
Proof.
  induction part_names as [|name names IH]; intros off csvfile Hlen.
  - simpl. by rewrite string_app_nil_r.
  - simpl in Hlen. simpl. unfold Py.getitem.
    destruct (contact_matrix !! (off + 0)%nat) as [row|] eqn:E.
    2: { apply lookup_ge_None in E. lia. }
    simpl. rewrite Nat.add_0_r in E.
    rewrite (imap_ext _ (fun k part_name => ((S off + k)%nat, part_name))).
    2: { intros k x _. simpl. f_equal. lia. }
    rewrite IH by lia.
    rewrite (drop_S _ _ _ E). simpl.
    by rewrite string_app_assoc.
Qed.

Lemma export_file_text (contact_matrix : np.ndarray) part_names :
  (length part_names ≤ length contact_matrix)%nat →
  export_contact_matrix_csv contact_matrix part_names =
  Py.Return (file_text ((csv.Str EmptyString :: map csv.Str part_names)
                        :: matrix_rows part_names contact_matrix)).
Proof.
  intros Hlen. unfold export_contact_matrix_csv, Py.enumerate.
  rewrite (imap_ext _ (fun k part_name => ((0 + k)%nat, part_name)))
    by done.
  by rewrite export_loop by done.
Qed.

Lemma all_cr_free_names names :
  Forall (fun name => cr_free name = true) names →
  all_cr_free (map csv.str (map csv.Str names)) = true.
Proof. induction 1 as [|name names Hn _ IH]; simpl; [done|]. by rewrite Hn. Qed.

Lemma all_cr_free_ints (row : list Z) :
  all_cr_free (map csv.str (map csv.Int row)) = true.
Proof.
  induction row as [|z row IH]; simpl; [done|].
  by rewrite plain_cr_free by apply plain_pretty.
Qed.

Lemma matrix_rows_ok names (contact_matrix : np.ndarray) :
  Forall (fun name => cr_free name = true) names →
  forallb row_ok (matrix_rows names contact_matrix) = true.
Proof.
  intros Hnames. revert contact_matrix.
  induction Hnames as [|name names Hn _ IH]; intros [|row m]; simpl; try done.
  rewrite IH. unfold row_ok. simpl. by rewrite Hn, all_cr_free_ints.
Qed.

Lemma list_comp_int_pretty (row : list Z) :
  Py.list_comp int (map csv.str (map csv.Int row)) = Py.Return row.
Proof.
  induction row as [|z row IH]; simpl; [done|].
  rewrite int_pretty. simpl. by rewrite IH.
Qed.

Lemma list_comp_matrix_rows names : ∀ contact_matrix : np.ndarray,
  length names = length contact_matrix →
  Py.list_comp (fun row => Py.list_comp int (drop 1 row))
    (map (map csv.str) (matrix_rows names contact_matrix))
  = Py.Return contact_matrix.
Proof.
  induction names as [|name names IH]; intros [|row m] Hlen; simpl in *;
    try done.
  rewrite drop_0, list_comp_int_pretty. simpl. by rewrite IH by lia.
Qed.

(** What holds of C9: when no part name contains a carriage return,
    exporting an integer matrix with as many part names as rows and
    loading the file gives back the matrix and the names, in order. *)
Theorem csv_round_trip_without_carriage_return
    (contact_matrix : np.ndarray) (part_names : list string) :
  length part_names = length contact_matrix →
  Forall (fun name => cr_free name = true) part_names →
  ∃ contents,
    export_contact_matrix_csv contact_matrix part_names = Py.Return contents ∧
    load_contact_matrix_csv contents = Py.Return (contact_matrix, part_names).
Proof.
  intros Hlen Hnames. eexists. split.
  { apply export_file_text. lia. }
  unfold load_contact_matrix_csv.
  rewrite reader_file_text.
  2: { simpl. rewrite matrix_rows_ok by done.
       unfold row_ok. simpl. by rewrite all_cr_free_names. }
  simpl. rewrite !drop_0, list_comp_matrix_rows by done. simpl.
  do 2 f_equal. rewrite map_map. simpl. apply map_id.
Qed.

Lemma csv_round_trip_without_carriage_return_witness :
  ∃ contents,
    export_contact_matrix_csv Scenario.chain_matrix Scenario.awkward_names
      = Py.Return contents ∧
    load_contact_matrix_csv contents
      = Py.Return (Scenario.chain_matrix, Scenario.awkward_names).
Proof.
  apply csv_round_trip_without_carriage_return; [reflexivity|].
  repeat constructor.
Defined.

(** * Further properties *)

(** ** CSV files *)




Lemma export_loop_raises (contact_matrix : np.ndarray) part_names :
  ∀ off csvfile,
  (off ≤ length contact_matrix)%nat →
  (length contact_matrix < off + length part_names)%nat →
  Py.for_ (imap (fun k part_name => ((off + k)%nat, part_name)) part_names)
    (fun '(i, part_name) csvfile =>
       matrix_row ← Py.getitem contact_matrix i;
       let row := csv.Str part_name :: map csv.Int matrix_row in
       Py.Return (csvfile +:+ csv.writerow row))
    csvfile
  = Py.Raise Py.IndexError.
Proof.
  induction part_names as [|name names IH]; intros off csvfile Hoff Hlen.
  - simpl in Hlen. lia.
  - simpl in Hlen. simpl. unfold Py.getitem.
    destruct (contact_matrix !! (off + 0)%nat) as [row|] eqn:E; [|done].
    simpl. apply lookup_lt_Some in E.
    rewrite (imap_ext _ (fun k part_name => ((S off + k)%nat, part_name))).
    2: { intros k x _. simpl. f_equal. lia. }
    apply IH; lia.
Qed.

(** X2: [export_contact_matrix_csv] raises [IndexError] exactly when
    there are more part names than matrix rows, and otherwise returns
    the text of the file (writing to the file system is not part of
    the model). *)
Theorem export_raises_iff_more_names_than_rows (contact_matrix : np.ndarray)
    (part_names : list string) :
  (export_contact_matrix_csv contact_matrix part_names
   = Py.Raise Py.IndexError
   ↔ (length contact_matrix < length part_names)%nat) ∧
  ((length part_names ≤ length contact_matrix)%nat
   ↔ ∃ contents,
       export_contact_matrix_csv contact_matrix part_names
       = Py.Return contents).
Proof.
  destruct (decide (length part_names ≤ length contact_matrix)%nat) as [H|H].
  - rewrite export_file_text by done. split.
    + split; [done | lia].
    + split; [eauto | done].
  - assert (export_contact_matrix_csv contact_matrix part_names
            = Py.Raise Py.IndexError) as ->.
    { unfold export_contact_matrix_csv, Py.enumerate.
      rewrite (imap_ext _ (fun k part_name => ((0 + k)%nat, part_name)))
        by done.
      apply export_loop_raises; lia. }
    split.
    + split; [lia | done].
    + split; [lia | by intros [? ?]].
Qed.

Lemma parse_process_char_end_of_line self self' :
  csv.parse_process_char self None = Py.Return self' →
  csv.state self' = csv.START_RECORD ∨
  csv.state self' = csv.IN_QUOTED_FIELD.
Proof.
  unfold csv.parse_process_char.
  destruct (csv.state self) eqn:E; intros [= <-]; simpl; auto.
Qed.

Lemma parse_line_end_of_line line : ∀ self self',
  csv.parse_line self line = Py.Return self' →
  csv.state self' = csv.START_RECORD ∨
  csv.state self' = csv.IN_QUOTED_FIELD.
Proof.
  induction line as [|c line IH]; intros self self'; simpl.
  - apply parse_process_char_end_of_line.
  - destruct (csv.parse_process_char self (Some c)) as [self1|]; [|done].
    apply IH.
Qed.

Lemma parse_process_char_raises self c e :
  csv.parse_process_char self c = Py.Raise e → ∃ msg, e = Py.CsvError msg.
Proof.
  unfold csv.parse_process_char.
  destruct (csv.state self), c as [ch|]; try done;
    repeat (case_match; try done); intros [= <-]; eauto.
Qed.

Lemma parse_line_raises line : ∀ self e,
  csv.parse_line self line = Py.Raise e → ∃ msg, e = Py.CsvError msg.
Proof.
  induction line as [|c line IH]; intros self e; simpl.
  - apply parse_process_char_raises.
  - destruct (csv.parse_process_char self (Some c)) as [self1|e1] eqn:E.
    + apply IH.
    + intros [= <-]. by apply parse_process_char_raises in E.
Qed.

Lemma reader_raises lines : ∀ self e,
  csv.reader lines self = Py.Raise e → ∃ msg, e = Py.CsvError msg.
Proof.
  induction lines as [|line lines IH]; intros self e; simpl.
  - by case_match.
  - destruct (csv.parse_line self line) as [self1|e1] eqn:E.
    + simpl. destruct (csv.state self1); try apply IH.
      destruct (csv.reader lines csv.parse_reset) eqn:E'; [done|].
      intros [= <-]. by apply IH in E'.
    + intros [= <-]. by apply parse_line_raises in E.
Qed.

(** The reader gives at least one record for at least one line. *)
Lemma reader_nonempty lines : ∀ self rows,
  csv.reader lines self = Py.Return rows →
  lines ≠ [] ∨ csv.state self = csv.IN_QUOTED_FIELD →
  rows ≠ [].
Proof.
  induction lines as [|line lines IH]; intros self rows;
    cbn [csv.reader].
  - intros H [?|Hst]; [done|].
    rewrite (bool_decide_eq_true_2 _ Hst), orb_true_r in H.
    by injection H as <-.
  - intros H _.
    destruct (csv.parse_line self line) as [self1|] eqn:E; [|done].
    simpl in H.
    destruct (parse_line_end_of_line _ _ _ E) as [Hst|Hst]; rewrite Hst in H.
    + destruct (csv.reader lines csv.parse_reset); [|done].
      by injection H as <-.
    + apply (IH _ _ H). by right.
Qed.

Lemma read_lines_nil contents :
  io.read_lines contents = [] ↔ contents = EmptyString.
Proof.
  split; [|by intros ->].
  destruct contents as [|c s]; [done|]. unfold io.read_lines. simpl.
  destruct (Ascii.eqb c CR); [done|].
  destruct (Ascii.eqb_spec c LF) as [->|Hc]; [done|].
  simpl. destruct (Ascii.eqb_spec c LF); [done|].
  by destruct (io.lines _).
Qed.

Lemma list_comp_raises {A B} (f : A → Py.result B) xs e :
  Py.list_comp f xs = Py.Raise e → ∃ x, x ∈ xs ∧ f x = Py.Raise e.
Proof.
  induction xs as [|x xs IH]; simpl; [done|].
  destruct (f x) as [y|e1] eqn:E; simpl.
  - destruct (Py.list_comp f xs); simpl; [done|].
    intros [= <-]. destruct IH as (x' & ? & ?); [done|].
    exists x'. split; [by right | done].
  - intros [= <-]. exists x. split; [by left | done].
Qed.

Lemma int_raises x e :
  int x = Py.Raise e →
  e = Py.ValueError "invalid literal for int() with base 10".
Proof. unfold int. case_match; [done|]. by intros [= <-]. Qed.

(** X3: [load_contact_matrix_csv] raises [IndexError] exactly when the
    file is empty: it comes from [rows[0]], and a file with any text in
    it gives the reader at least one row. *)
Theorem load_raises_index_error_iff_empty (contents : string) :
  load_contact_matrix_csv contents = Py.Raise Py.IndexError
  ↔ contents = EmptyString.
Proof.
  assert (∀ e, load_contact_matrix_csv contents = Py.Raise e →
               (e = Py.IndexError ∧ contents = EmptyString)
               ∨ (∃ msg, e = Py.CsvError msg)
               ∨ e = Py.ValueError "invalid literal for int() with base 10")
    as Hcases.
  { intros e. unfold load_contact_matrix_csv.
    destruct (csv.reader (io.read_lines contents) csv.parse_reset)
      as [rows|e1] eqn:E; simpl.
    2: { intros [= <-]. right. left. by apply reader_raises in E. }
    destruct rows as [|header rows]; simpl.
    { intros [= <-]. left. split; [done|].
      apply read_lines_nil.
      destruct (io.read_lines contents) eqn:El; [done|].
      exfalso. by apply (reader_nonempty _ _ _ E); [left|]. }
    rewrite drop_0.
    destruct (Py.list_comp _ rows) as [m|e1] eqn:E'; simpl; [done|].
    intros [= <-]. right. right.
    apply list_comp_raises in E' as (row & _ & E').
    apply list_comp_raises in E' as (x & _ & E').
    by apply int_raises in E'. }
  split; [|by intros ->].
  intros H. destruct (Hcases _ H) as [[_ ?]|[[? ?]|?]]; done.
Qed.

(** ** The contact matrix and the graph built from it *)

Lemma entry_outside n (m : np.ndarray) i j :
  np.square n m → ¬ ((i < n)%nat ∧ (j < n)%nat) → np.entry m i j = 0.
Proof.
  intros [Hlen Hrows] Hout. unfold np.entry.
  destruct (m !! i) as [row|] eqn:Ei; [|done]. simpl.
  pose proof (lookup_lt_Some _ _ _ Ei).
  pose proof (Hrows _ _ Ei).
  destruct (row !! j) as [x|] eqn:Ej; [|done].
  apply lookup_lt_Some in Ej. lia.
Qed.

Lemma touching_monotone {Solid : Type}
    (BRepExtrema : Solid → Solid → Py.result DistShapeShape)
    (self self' : STEPContactAnalyzer Solid) i j :
  parts self' = parts self → (tolerance self <= tolerance self')%Q →
  touching BRepExtrema self i j = true →
  touching BRepExtrema self' i j = true.
Proof.
  intros Hparts Htol. unfold touching. rewrite Hparts.
  destruct (parts self !! i) as [p|]; [|done].
  destruct (parts self !! j) as [q|]; [|done].
  unfold _are_parts_in_contact, are_parts_in_contact_body.
  destruct (BRepExtrema p q) as [calc|]; simpl; [|done].
  destruct (IsDone calc); simpl; [|done].
  rewrite !Qle_bool_iff. intros H. by apply Qle_trans with (tolerance self).
Qed.

(** X4: raising the tolerance never removes a contact: on the same parts,
    every entry that is 1 under a tolerance is 1 under any larger one. *)
Theorem larger_tolerance_keeps_contacts {Solid : Type}
    (BRepExtrema : Solid → Solid → Py.result DistShapeShape)
    (self self' : STEPContactAnalyzer Solid) :
  parts self' = parts self → (tolerance self <= tolerance self')%Q →
  ∃ m m' after after',
    compute_contact_matrix BRepExtrema self = Py.Return (m, after) ∧
    compute_contact_matrix BRepExtrema self' = Py.Return (m', after') ∧
    ∀ i j, np.entry m i j = 1 → np.entry m' i j = 1.
Proof.
  intros Hparts Htol.
  destruct (compute_contact_matrix_entries BRepExtrema self)
    as (m & E & Hsq & Hent).
  destruct (compute_contact_matrix_entries BRepExtrema self')
    as (m' & E' & Hsq' & Hent').
  rewrite Hparts in Hsq', Hent'.
  eexists m, m', _, _. split; [exact E|]. split; [exact E'|].
  intros i j H.
  destruct (decide ((i < length (parts self))%nat
                    ∧ (j < length (parts self))%nat)) as [[Hi Hj]|Hout].
  - rewrite Hent in H by done. rewrite Hent' by done.
    destruct (decide (i = j)); [done|].
    destruct (touching BRepExtrema self _ _) eqn:Ht; [|done].
    by rewrite (touching_monotone BRepExtrema self self').
  - by rewrite (entry_outside _ _ _ _ Hsq Hout) in H.
Qed.

Lemma larger_tolerance_keeps_contacts_witness :
  ∃ m m' after after',
    compute_contact_matrix Scenario.distances Scenario.chain
      = Py.Return (m, after) ∧
    compute_contact_matrix Scenario.distances Inputs.chain_loose
      = Py.Return (m', after') ∧
    ∀ i j, np.entry m i j = 1 → np.entry m' i j = 1.
Proof.
  apply larger_tolerance_keeps_contacts; [reflexivity|].
  unfold Qle. simpl. lia.
Defined.

(** X5: after [compute_contact_matrix], [get_contact_graph] returns a
    graph, and two parts are joined by an edge exactly when they are
    different and the detector finds them in contact. *)
Theorem graph_of_computed_matrix {Solid : Type}
    (BRepExtrema : Solid → Solid → Py.result DistShapeShape)
    (self : STEPContactAnalyzer Solid) :
  ∃ m after G,
    compute_contact_matrix BRepExtrema self = Py.Return (m, after) ∧
    get_contact_graph after = Py.Return G ∧
    ∀ u v, nx.has_edge G u v = true ↔
           u ≠ v ∧ (u < length (parts self))%nat ∧
           (v < length (parts self))%nat ∧
           touching BRepExtrema self (u `min` v) (u `max` v) = true.
Proof.
  destruct (compute_contact_matrix_entries BRepExtrema self)
    as (m & E & Hsq & Hent).
  set (after := {| tolerance := tolerance self; parts := parts self;
                   contact_matrix := Some m;
                   part_names := part_names self |}) in *.
  destruct (get_contact_graph_edges after m Hsq eq_refl) as (G & EG & Hedges).
  exists m, after, G. split; [exact E|]. split; [exact EG|].
  intros u v. rewrite Hedges. simpl.
  split; intros (Hne & Hu & Hv & H); (split; [done|]; split; [done|];
    split; [done|]).
  - rewrite Hent in H by lia. rewrite decide_False in H by lia.
    replace ((u `min` v) `min` (u `max` v))%nat with (u `min` v)%nat
      in H by lia.
    replace ((u `min` v) `max` (u `max` v))%nat with (u `max` v)%nat
      in H by lia.
    by destruct (touching BRepExtrema self (u `min` v) (u `max` v)).
  - rewrite Hent by lia. rewrite decide_False by lia.
    replace ((u `min` v) `min` (u `max` v))%nat with (u `min` v)%nat by lia.
    replace ((u `min` v) `max` (u `max` v))%nat with (u `max` v)%nat by lia.
    by rewrite H.
Qed.

(** X6: [get_contact_graph] reads the matrix above its diagonal only: the
    graph has no self-loop and is undirected whatever the diagonal and
    the lower triangle hold, and two matrices that agree above the
    diagonal give the same edges. *)
Theorem graph_reads_upper_triangle {Solid : Type}
    (self self' : STEPContactAnalyzer Solid) (cm cm' : np.ndarray) :
  contact_matrix self = Some cm → contact_matrix self' = Some cm' →
  parts self' = parts self →
  np.square (length (parts self)) cm → np.square (length (parts self)) cm' →
  (∀ i j, (i < j)%nat → np.entry cm i j = np.entry cm' i j) →
  ∃ G G',
    get_contact_graph self = Py.Return G ∧
    get_contact_graph self' = Py.Return G' ∧
    ∀ u v, nx.has_edge G u u = false ∧
           nx.has_edge G u v = nx.has_edge G v u ∧
           nx.has_edge G u v = nx.has_edge G' u v.
Proof.
  intros Hcm Hcm' Hparts Hsq Hsq' Hupper.
  destruct (get_contact_graph_edges self cm Hsq Hcm) as (G & E & Hedges).
  rewrite <- Hparts in Hsq'.
  destruct (get_contact_graph_edges self' cm' Hsq' Hcm') as (G' & E' & Hedges').
  rewrite Hparts in Hedges'.
  exists G, G'. split; [exact E|]. split; [exact E'|].
  assert (∀ b b' : bool, (b = true ↔ b' = true) → b = b') as Hbool.
  { intros [] [] [? ?]; auto. symmetry. auto. }
  intros u v. split; [|split].
  - destruct (nx.has_edge G u u) eqn:Hb; [|done].
    apply Hedges in Hb as [? _]. done.
  - apply Hbool. rewrite !Hedges.
    rewrite (Nat.min_comm v u), (Nat.max_comm v u). intuition.
  - apply Hbool. rewrite Hedges, Hedges'.
    destruct (decide (u = v)) as [->|Hne]; [tauto|].
    rewrite (Hupper (u `min` v) (u `max` v))%nat by lia. tauto.
Qed.

Lemma graph_reads_upper_triangle_witness :
  ∃ G G',
    get_contact_graph Scenario.chain_computed = Py.Return G ∧
    get_contact_graph Inputs.chain_upper_only = Py.Return G' ∧
    nx.has_edge G 1 1 = false ∧
    nx.has_edge G 1 2 = nx.has_edge G 2 1 ∧
    nx.has_edge G 1 2 = nx.has_edge G' 1 2.
Proof.
  destruct (graph_reads_upper_triangle Scenario.chain_computed
              Inputs.chain_upper_only Scenario.chain_matrix
              Inputs.upper_only eq_refl eq_refl eq_refl) as (G & G' & E & E' & H).
  - split; [reflexivity|]. intros i row Hi.
    destruct i as [|[|[|i]]]; simpl in Hi; [| | |done];
      injection Hi as <-; reflexivity.
  - split; [reflexivity|]. intros i row Hi.
    destruct i as [|[|[|i]]]; simpl in Hi; [| | |done];
      injection Hi as <-; reflexivity.
  - intros i j Hij.
    destruct i as [|[|[|i]]], j as [|[|[|j]]]; try lia; reflexivity.
  - exists G, G'. split; [exact E|]. split; [exact E'|].
    destruct (H 1 2)%nat as (_ & H2 & H3).
    destruct (H 1 1)%nat as (H1 & _). auto.
Defined.

(** ** The nodes of the contact graph *)

Lemma touch_node G w k :
  nx._node (nx.touch G w) !! k =
  match nx._node G !! k with
  | Some attrs => Some attrs
  | None => if decide (k = w) then Some ∅ else None
  end.
Proof.
  unfold nx.touch. destruct (nx._node G !! w) eqn:E; simpl.
  - destruct (nx._node G !! k) eqn:Ek; [done|].
    rewrite decide_False; [done|]. intros ->. congruence.
  - destruct (decide (k = w)) as [->|Hne].
    + by rewrite lookup_insert_eq, E.
    + rewrite lookup_insert_ne by done. by destruct (nx._node G !! k).
Qed.

Lemma add_edge_node G a b k :
  nx._node (nx.add_edge G a b) !! k =
  match nx._node G !! k with
  | Some attrs => Some attrs
  | None => if decide (k = a ∨ k = b) then Some ∅ else None
  end.
Proof.
  unfold nx.add_edge. simpl. rewrite !touch_node.
  destruct (nx._node G !! k); [done|].
  destruct (decide (k = a)), (decide (k = b)), (decide (k = a ∨ k = b));
    tauto || done.
Qed.

Lemma add_nodes_names (names : list string) : ∀ off G,
  (∀ k, (off ≤ k)%nat → nx._node G !! k = None) →
  ∀ k,
    nx._node (foldl (fun G '(i, name) => nx.add_node G i name) G
                (imap (fun k name => ((off + k)%nat, name)) names)) !! k
    = if decide (k < off)%nat then nx._node G !! k
      else (fun name => {["name" := name]}) <$> names !! (k - off)%nat.
Proof.
  induction names as [|name names IH]; intros off G Hfree k; simpl.
  - destruct (decide (k < off)%nat); [done|]. apply Hfree. lia.
  - rewrite (imap_ext _ (fun k name => ((S off + k)%nat, name))).
    2: { intros i x _. simpl. f_equal. lia. }
    rewrite Nat.add_0_r.
    assert (nx.add_node G off name =
            {| nx._node := <[off := {["name" := name]}]> (nx._node G);
               nx._adj := <[off := ∅]> (nx._adj G) |}) as Hadd.
    { unfold nx.add_node. by rewrite Hfree by lia. }
    rewrite IH.
    2: { intros i Hi. rewrite Hadd. simpl.
         rewrite lookup_insert_ne by lia. apply Hfree. lia. }
    rewrite Hadd. simpl.
    destruct (decide (k < S off)%nat), (decide (k < off)%nat); try lia.
    + by rewrite lookup_insert_ne by lia.
    + assert (k = off) as -> by lia.
      by rewrite lookup_insert_eq, Nat.sub_diag.
    + replace (k - off)%nat with (S (k - S off)) by lia. done.
Qed.

Lemma graph_step_nodes names (cm : np.ndarray) i j G G' :
  graph_wf G → nodes_ok names G →
  graph_step cm i j G = Py.Return G' →
  graph_wf G' ∧ nodes_ok names G'.
Proof.
  intros Hwf Hnodes. unfold graph_step.
  destruct (np.getitem2 cm i j) as [x|]; simpl; [|done].
  destruct (x =? 1); intros [= <-]; [|done].
  destruct (add_edge_spec G i j Hwf) as [Hwf' Hn'].
  split; [done|]. intros k. specialize (Hnodes k).
  rewrite add_edge_node.
  destruct (names !! k) as [name|].
  - by rewrite Hnodes.
  - destruct Hnodes as [[-> [v Hv]]|[-> Hnone]].
    + left. split; [done|]. exists v. apply Hn'. by left.
    + destruct (decide (k = i ∨ k = j)) as [Hk|Hk].
      * left. split; [done|]. destruct Hk as [-> | ->].
        -- exists j. apply Hn'. right. by left.
        -- exists i. apply Hn'. right. by right.
      * right. split; [done|]. intros v Hv. apply Hn' in Hv.
        destruct Hv as [Hv|[[-> _]|[-> _]]]; [by apply (Hnone v) | tauto..].
Qed.

Lemma graph_loop_nodes names (cm : np.ndarray) i xs : ∀ G G',
  graph_wf G → nodes_ok names G →
  Py.for_ xs (graph_step cm i) G = Py.Return G' →
  graph_wf G' ∧ nodes_ok names G'.
Proof.
  induction xs as [|j xs IH]; intros G G' Hwf Hnodes; simpl.
  - by intros [= <-].
  - destruct (graph_step cm i j G) as [G1|] eqn:E; simpl; [|done].
    destruct (graph_step_nodes _ _ _ _ _ _ Hwf Hnodes E) as [? ?].
    by apply IH.
Qed.

Lemma graph_loops_nodes names (cm : np.ndarray) n xs : ∀ G G',
  graph_wf G → nodes_ok names G →
  Py.for_ xs (fun i G => Py.for_ (Py.range (i + 1) n) (graph_step cm i) G) G
  = Py.Return G' →
  graph_wf G' ∧ nodes_ok names G'.
Proof.
  induction xs as [|i xs IH]; intros G G' Hwf Hnodes; simpl.
  - by intros [= <-].
  - destruct (Py.for_ (Py.range (i + 1) n) (graph_step cm i) G)
      as [G1|] eqn:E; simpl; [|done].
    destruct (graph_loop_nodes _ _ _ _ _ _ Hwf Hnodes E) as [? ?].
    by apply IH.
Qed.

Lemma get_contact_graph_nodes_ok {Solid : Type}
    (self : STEPContactAnalyzer Solid) G :
  get_contact_graph self = Py.Return G → nodes_ok (part_names self) G.
Proof.
  unfold get_contact_graph.
  destruct (contact_matrix self) as [cm|]; [|done]. intros E.
  destruct (add_nodes_no_edges (Py.enumerate (part_names self)) nx.empty)
    as [Hwf0 Hn0]; [by intros w [? ?] | done |].
  assert (nodes_ok (part_names self)
            (foldl (fun G '(i, name) => nx.add_node G i name) nx.empty
               (Py.enumerate (part_names self)))) as Hnodes0.
  { intros k. rewrite Hn0.
    unfold Py.enumerate.
    rewrite (imap_ext _ (fun k name => ((0 + k)%nat, name))) by done.
    rewrite add_nodes_names by done.
    rewrite decide_False by lia. rewrite Nat.sub_0_r.
    destruct (part_names self !! k); simpl; [done|].
    right. split; [done|]. intros v. apply not_elem_of_empty. }
  by destruct (graph_loops_nodes _ _ _ _ _ _ Hwf0 Hnodes0 E) as [_ Hnodes].
Qed.

(** X7: the nodes of the graph [get_contact_graph] returns: every index
    below the number of part names is a node whose only attribute is
    its name; any other part is a node, without attributes, exactly
    when an edge touches it.  A part that has no name and touches
    nothing is not in the graph. *)
Theorem graph_nodes {Solid : Type} (self : STEPContactAnalyzer Solid) G :
  get_contact_graph self = Py.Return G →
  ∀ k,
    match part_names self !! k with
    | Some name => nx._node G !! k = Some {["name" := name]}
    | None =>
        (nx._node G !! k = Some ∅ ∧ ∃ v, nx.has_edge G k v = true) ∨
        (nx._node G !! k = None ∧ ∀ v, nx.has_edge G k v = false)
    end.
Proof.
  intros E k. pose proof (get_contact_graph_nodes_ok self G E k) as Hnodes.
  destruct (part_names self !! k); [done|].
  destruct Hnodes as [[? [v Hv]]|[? Hnone]].
  - left. split; [done|]. exists v. unfold nx.has_edge.
    by apply bool_decide_eq_true.
  - right. split; [done|]. intros v. unfold nx.has_edge.
    apply bool_decide_eq_false. apply Hnone.
Qed.

Lemma graph_nodes_witness :
  ∃ G, get_contact_graph Inputs.isolated_unnamed = Py.Return G ∧
       nx._node G !! 0%nat = Some {["name" := "Base"]} ∧
       nx._node G !! 2%nat = None.
Proof.
  eexists. split; [reflexivity|].
  pose proof (graph_nodes Inputs.isolated_unnamed _ eq_refl) as H.
  split.
  - exact (H 0%nat).
  - destruct (H 2%nat) as [[_ [v Hv]]|[Hnone _]]; [|exact Hnone].
    exfalso. revert Hv. vm_compute.
    destruct v as [|[|[|v]]]; discriminate.
Defined.

(** X8: with as many part names as parts, the graph has one node per part. *)
Theorem graph_has_one_node_per_part {Solid : Type}
    (self : STEPContactAnalyzer Solid) (cm : np.ndarray) :
  contact_matrix self = Some cm →
  np.square (length (parts self)) cm →
  length (part_names self) = length (parts self) →
  ∃ G, get_contact_graph self = Py.Return G ∧
       nx.number_of_nodes G = length (parts self).
Proof.
  intros Hcm Hsq Hlen.
  destruct (get_contact_graph_edges self cm Hsq Hcm) as (G & E & Hedges).
  exists G. split; [exact E|].
  pose proof (get_contact_graph_nodes_ok self G E) as Hnodes.
  unfold nx.number_of_nodes. rewrite <- size_dom.
  assert (dom (nx._node G) = list_to_set (seq 0 (length (parts self))))
    as ->.
  { apply set_eq. intros k.
    rewrite elem_of_dom, elem_of_list_to_set, elem_of_seq.
    specialize (Hnodes k).
    destruct (part_names self !! k) as [name|] eqn:Ek.
    - apply lookup_lt_Some in Ek. rewrite Hnodes. split; [lia | eauto].
    - apply lookup_ge_None in Ek.
      destruct Hnodes as [[_ [v Hv]]|[-> _]].
      + assert (nx.has_edge G k v = true) as Hkv
          by by apply bool_decide_eq_true.
        apply Hedges in Hkv. lia.
      + split; [by intros [? ?] | lia]. }
  rewrite size_list_to_set by apply NoDup_seq. apply length_seq.
Qed.

Lemma graph_has_one_node_per_part_witness :
  ∃ G, get_contact_graph Scenario.chain_computed = Py.Return G ∧
       nx.number_of_nodes G = 3%nat.
Proof.
  apply (graph_has_one_node_per_part Scenario.chain_computed
           Scenario.chain_matrix); [reflexivity | | reflexivity].
  split; [reflexivity|]. intros i row Hi.
  destruct i as [|[|[|i]]]; simpl in Hi; [| | |done];
    injection Hi as <-; reflexivity.
Defined.

(** ** Loading, then using a matrix computed before *)

Lemma part_names_NoDup {A} (solids : list A) :
  NoDup (imap (fun i (_ : A) => "Part_" +:+ pretty i) solids).
Proof.
  apply NoDup_alt. intros i j name Hi Hj.
  rewrite list_lookup_imap in Hi, Hj.
  destruct (solids !! i); [|done]. destruct (solids !! j); [|done].
  simpl in *. injection Hi as <-. injection Hj as Hj.
  change (pretty j = pretty i) in Hj. by apply (inj pretty) in Hj.
Qed.

(** X9: [load_step_file] never touches the tolerance or the matrix computed
    before, whatever the reader does; it keeps the lists of parts and
    of part names equally long; and after a load that returns [True]
    the part names are pairwise different. *)
Theorem load_step_file_keeps {Solid : Type}
    (STEPControl : string → STEPControl_Reader Solid)
    (self : STEPContactAnalyzer Solid) (file_path : string) :
  length (parts self) = length (part_names self) →
  ∃ flag after,
    load_step_file STEPControl self file_path = (flag, after) ∧
    tolerance after = tolerance self ∧
    contact_matrix after = contact_matrix self ∧
    length (parts after) = length (part_names after) ∧
    (flag = true → NoDup (part_names after)).
Proof.
  intros Hlen. unfold load_step_file, load_step_file_body.
  destruct (ReadFile (STEPControl file_path)) as [status|e].
  2: { eexists _, _. by repeat split. }
  destruct (negb (status =? 1)).
  { eexists _, _. by repeat split. }
  destruct (OneShape (STEPControl file_path)) as [shape|e].
  2: { eexists _, _. by repeat split. }
  rewrite explore_spec. simpl.
  destruct (Explorer_raises (STEPControl file_path));
    eexists _, _; (split; [reflexivity|]); simpl;
    (split; [done|]); (split; [done|]); (split; [by rewrite length_imap|]);
    [done|]. intros _. apply part_names_NoDup.
Qed.

Lemma load_step_file_keeps_witness :
  ∃ flag after,
    load_step_file Scenario.two_solids Scenario.chain_computed "knife.step"
      = (flag, after) ∧
    tolerance after = tolerance Scenario.chain_computed ∧
    contact_matrix after = Some Scenario.chain_matrix ∧
    length (parts after) = length (part_names after) ∧
    (flag = true → NoDup (part_names after)).
Proof.
  apply (load_step_file_keeps Scenario.two_solids Scenario.chain_computed).
  reflexivity.
Defined.

Lemma for_range_raises {St} (body : nat → St → Py.result St) e k hi :
  (k < hi)%nat →
  (∀ s, body k s = Py.Raise e) →
  ∀ d lo s, (lo + d = k)%nat →
    (∀ j s, (lo ≤ j < k)%nat → ∃ s', body j s = Py.Return s') →
    Py.for_ (Py.range lo hi) body s = Py.Raise e.
Proof.
  intros Hk Hraise. induction d as [|d IH]; intros lo s Hlo Hbody.
  - assert (lo = k) as -> by lia. rewrite range_cons by lia. simpl.
    by rewrite Hraise.
  - rewrite range_cons by lia. simpl.
    destruct (Hbody lo s) as [s' ->]; [lia|]. simpl.
    apply IH; [lia|]. intros j s1 Hj. apply Hbody. lia.
Qed.

(** X10: a matrix computed for fewer parts than the analyzer now holds (as
    after loading a larger file without recomputing) makes
    [get_contact_graph] raise [IndexError], as soon as there are two
    parts. *)
Theorem graph_of_stale_matrix_raises {Solid : Type}
    (self : STEPContactAnalyzer Solid) (cm : np.ndarray) :
  contact_matrix self = Some cm →
  np.square (length cm) cm →
  (length cm < length (parts self))%nat →
  (2 ≤ length (parts self))%nat →
  get_contact_graph self = Py.Raise Py.IndexError.
Proof.
  intros Hcm [_ Hrows] Hstale Htwo. unfold get_contact_graph. rewrite Hcm.
  set (n := length (parts self)) in *.
  rewrite range_cons by lia. simpl.
  set (G0 := foldl _ _ _).
  assert (Py.for_ (Py.range 1 n) (graph_step cm 0) G0
          = Py.Raise Py.IndexError) as ->; [|done].
  apply (for_range_raises _ _ (length cm `max` 1)%nat)
    with (d := (length cm `max` 1 - 1)%nat); [lia | | lia |].
  - intros G. unfold graph_step, np.getitem2, Py.getitem.
    destruct (cm !! 0%nat) as [row|] eqn:E0; [|done]. simpl.
    pose proof (Hrows _ _ E0) as Hrow.
    destruct (row !! (length cm `max` 1)%nat) eqn:Ek; [|done].
    apply lookup_lt_Some in Ek. lia.
  - intros j G Hj. unfold graph_step, np.getitem2, Py.getitem.
    destruct (cm !! 0%nat) as [row|] eqn:E0.
    2: { apply lookup_ge_None in E0. lia. }
    simpl. pose proof (Hrows _ _ E0) as Hrow.
    destruct (row !! j) as [x|] eqn:Ej.
    2: { apply lookup_ge_None in Ej. lia. }
    simpl. destruct (x =? 1); eauto.
Qed.

Lemma graph_of_stale_matrix_raises_witness :
  get_contact_graph Inputs.stale = Py.Raise Py.IndexError.
Proof.
  apply (graph_of_stale_matrix_raises Inputs.stale [[1; 1]; [1; 1]]);
    [reflexivity | | simpl; lia | simpl; lia].
  split; [reflexivity|]. intros i row Hi.
  destruct i as [|[|i]]; simpl in Hi; [| |done];
    injection Hi as <-; reflexivity.
Defined.

(** ** Degrees, edges and the statistics *)

Lemma zsum_ext g h n :
  (∀ k, (k < n)%nat → g k = h k) → zsum g n = zsum h n.
Proof.
  induction n as [|n IH]; intros H; simpl; [done|].
  rewrite IH by (intros; apply H; lia). rewrite H by lia. done.
Qed.

Lemma zsum_add g h n : zsum (fun k => g k + h k) n = zsum g n + zsum h n.
Proof. induction n as [|n IH]; simpl; [done|]. rewrite IH. lia. Qed.

Lemma zsum_const c n : zsum (fun _ => c) n = Z.of_nat n * c.
Proof. induction n as [|n IH]; simpl; [done|]. rewrite IH. lia. Qed.

Lemma zsum_nonneg g n : (∀ k, (k < n)%nat → 0 ≤ g k) → 0 ≤ zsum g n.
Proof.
  induction n as [|n IH]; intros H; simpl; [done|].
  specialize (H n ltac:(lia)) as Hn.
  assert (0 ≤ zsum g n) by (apply IH; intros; apply H; lia). lia.
Qed.

(** Double counting: a symmetric table summed over all ordered pairs
    is twice the sum below the diagonal plus the diagonal. *)
Lemma zsum_symmetric (a : nat → nat → Z) n :
  (∀ u v, a u v = a v u) →
  zsum (fun u => zsum (a u) n) n =
  2 * zsum (fun u => zsum (a u) u) n + zsum (fun u => a u u) n.
Proof.
  intros Hsym. induction n as [|n IH]; simpl; [done|].
  rewrite zsum_add, IH.
  rewrite (zsum_ext (fun u => a u n) (a n)) by (intros; apply Hsym).
  lia.
Qed.

(** The sum of a row is the sum of its entries by index. *)
Lemma sum1_zsum (row : list Z) :
  np.sum1 row = zsum (fun j => default 0 (row !! j)) (length row).
Proof.
  induction row as [|x row IH] using rev_ind; [done|].
  rewrite length_app. simpl. rewrite Nat.add_1_r. simpl.
  unfold np.sum1 in *. rewrite foldr_app. simpl.
  rewrite list_lookup_middle by done. simpl.
  rewrite (zsum_ext _ (fun j => default 0 (row !! j))).
  2: { intros k Hk. by rewrite lookup_app_l. }
  rewrite <- IH. clear IH.
  induction row as [|y row IH]; simpl; [lia|]. rewrite IH. lia.
Qed.

Lemma sum1_row n (cm : np.ndarray) i row :
  np.square n cm → cm !! i = Some row →
  np.sum1 row = zsum (np.entry cm i) n.
Proof.
  intros [_ Hrows] Ei. rewrite sum1_zsum, (Hrows _ _ Ei).
  apply zsum_ext. intros k _. unfold np.entry. by rewrite Ei.
Qed.

Lemma sum_rows (rows : list (list Z)) :
  np.sum rows = zsum (fun i => np.sum1 (default [] (rows !! i))) (length rows).
Proof.
  unfold np.sum. rewrite sum1_zsum, length_map.
  apply zsum_ext. intros k Hk. rewrite list_lookup_fmap.
  destruct (rows !! k) eqn:E; [done|].
  apply lookup_ge_None in E. lia.
Qed.

Lemma adjacent_diag (cm : np.ndarray) u : adjacent cm u u = 0.
Proof. unfold adjacent. by rewrite decide_False by tauto. Qed.

Lemma adjacent_sym (cm : np.ndarray) u v : adjacent cm u v = adjacent cm v u.
Proof.
  unfold adjacent. rewrite (Nat.min_comm v u), (Nat.max_comm v u).
  repeat case_decide; try done; exfalso; intuition congruence.
Qed.

Lemma adjacent_entry n (cm : np.ndarray) u v :
  contact_matrix_ok n cm → u ≠ v → adjacent cm u v = np.entry cm u v.
Proof.
  intros (Hsq & H01 & Hdiag & Hsym) Hne. unfold adjacent.
  assert (np.entry cm (u `min` v) (u `max` v) = np.entry cm u v) as ->.
  { destruct (decide (u ≤ v)%nat).
    - by rewrite Nat.min_l, Nat.max_r by lia.
    - rewrite Nat.min_r, Nat.max_l by lia. apply Hsym. }
  destruct (H01 u v) as [-> | ->]; case_decide; try done;
    exfalso; intuition congruence.
Qed.

(** In a contact matrix a row sums to 1 plus the number of contacts of
    its part. *)
Lemma row_sum_adjacent n (cm : np.ndarray) u :
  contact_matrix_ok n cm → (u < n)%nat →
  zsum (np.entry cm u) n = 1 + zsum (adjacent cm u) n.
Proof.
  intros Hok Hu. pose proof Hok as (Hsq & H01 & Hdiag & Hsym).
  assert (∀ m, zsum (np.entry cm u) m =
               (if decide (u < m)%nat then 1 else 0) + zsum (adjacent cm u) m)
    as H; [|by rewrite H, decide_True].
  induction m as [|m IH]; simpl; [done|]. rewrite IH.
  destruct (decide (u = m)) as [->|Hne].
  - rewrite Hdiag, adjacent_diag by done.
    rewrite decide_False by lia. rewrite decide_True by lia. lia.
  - rewrite (adjacent_entry n) by done.
    destruct (decide (u < m)%nat), (decide (u < S m)%nat); lia.
Qed.

(** The sum of a contact matrix is the number of parts plus twice the
    number of pairs in contact. *)
Lemma sum_contact_matrix n (cm : np.ndarray) :
  contact_matrix_ok n cm →
  np.sum cm = Z.of_nat n + 2 * pairs_in_contact cm n.
Proof.
  intros Hok. pose proof Hok as ([Hlen Hrows] & H01 & Hdiag & Hsym).
  rewrite sum_rows, Hlen.
  rewrite (zsum_ext _ (fun u => 1 + zsum (adjacent cm u) n)).
  2: { intros u Hu. destruct (cm !! u) as [row|] eqn:E.
       - simpl. rewrite (sum1_row n cm u row) by done.
         by apply row_sum_adjacent.
       - apply lookup_ge_None in E. lia. }
  rewrite zsum_add, zsum_const, zsum_symmetric.
  2: { intros u v. apply adjacent_sym. }
  rewrite (zsum_ext (fun u => adjacent cm u u) (fun _ => 0)).
  2: { intros u _. apply adjacent_diag. }
  rewrite zsum_const. unfold pairs_in_contact. lia.
Qed.

(** A comprehension whose body returns on every element returns the
    list of the results. *)
Lemma list_comp_map {A B} (f : A → Py.result B) (g : A → B) (xs : list A) :
  (∀ x, x ∈ xs → f x = Py.Return (g x)) →
  Py.list_comp f xs = Py.Return (map g xs).
Proof.
  induction xs as [|x xs IH]; intros H; simpl; [done|].
  rewrite H by apply list_elem_of_here. simpl.
  rewrite IH by (intros; apply H; by apply list_elem_of_further). done.
Qed.

Lemma foldl_max_spec (v : list Z) : ∀ x,
  foldl Z.max x v ∈ x :: v ∧ ∀ y, y ∈ x :: v → y ≤ foldl Z.max x v.
Proof.
  induction v as [|z v IH]; intros x; simpl.
  - split; [apply list_elem_of_here|].
    intros y [->|?%not_elem_of_nil]%elem_of_cons; [lia|done].
  - destruct (IH (x `max` z)) as [Hin Hle]. split.
    + apply elem_of_cons in Hin as [Hin|Hin].
      * rewrite Hin. destruct (Z.max_spec x z) as [[_ ->]|[_ ->]].
        -- apply list_elem_of_further, list_elem_of_here.
        -- apply list_elem_of_here.
      * by do 2 apply list_elem_of_further.
    + intros y Hy.
      assert (x `max` z ≤ foldl Z.max (x `max` z) v)
        by apply Hle, list_elem_of_here.
      apply elem_of_cons in Hy as [->|Hy]; [lia|].
      apply elem_of_cons in Hy as [->|Hy]; [lia|].
      by apply Hle, list_elem_of_further.
Qed.

Lemma foldl_min_spec (v : list Z) : ∀ x,
  foldl Z.min x v ∈ x :: v ∧ ∀ y, y ∈ x :: v → foldl Z.min x v ≤ y.
Proof.
  induction v as [|z v IH]; intros x; simpl.
  - split; [apply list_elem_of_here|].
    intros y [->|?%not_elem_of_nil]%elem_of_cons; [lia|done].
  - destruct (IH (x `min` z)) as [Hin Hle]. split.
    + apply elem_of_cons in Hin as [Hin|Hin].
      * rewrite Hin. destruct (Z.min_spec x z) as [[_ ->]|[_ ->]].
        -- apply list_elem_of_here.
        -- apply list_elem_of_further, list_elem_of_here.
      * by do 2 apply list_elem_of_further.
    + intros y Hy.
      assert (foldl Z.min (x `min` z) v ≤ x `min` z)
        by apply Hle, list_elem_of_here.
      apply elem_of_cons in Hy as [->|Hy]; [lia|].
      apply elem_of_cons in Hy as [->|Hy]; [lia|].
      by apply Hle, list_elem_of_further.
Qed.

(** [np.max] and [np.min] of an array that is not empty return its
    largest and its smallest element. *)
Lemma np_max_spec (v : list Z) :
  v ≠ [] →
  ∃ m, np.max v = Py.Return m ∧ m ∈ v ∧ ∀ y, y ∈ v → y ≤ m.
Proof.
  destruct v as [|x v]; [done|]. intros _. eexists. split; [done|].
  apply foldl_max_spec.
Qed.

Lemma np_min_spec (v : list Z) :
  v ≠ [] →
  ∃ m, np.min v = Py.Return m ∧ m ∈ v ∧ ∀ y, y ∈ v → m ≤ y.
Proof.
  destruct v as [|x v]; [done|]. intros _. eexists. split; [done|].
  apply foldl_min_spec.
Qed.

Lemma sum1_map_seq (g : nat → Z) n :
  np.sum1 (map g (seq 0 n)) = zsum g n.
Proof.
  rewrite sum1_zsum, length_map, length_seq.
  apply zsum_ext. intros k Hk.
  by rewrite list_lookup_fmap, lookup_seq_lt.
Qed.

Lemma length_filter_map_seq (g : nat → Z) n :
  length (filter (fun d => d = 0) (map g (seq 0 n)))
  = length (filter (fun u => g u = 0) (seq 0 n)).
Proof.
  induction (seq 0 n) as [|x l IH]; [done|]. simpl.
  rewrite !filter_cons. case_decide; simpl; by rewrite IH.
Qed.

Lemma np_mean_spec (v : list Z) :
  v ≠ [] → np.mean v = Some (np.sum1 v # Pos.of_nat (length v)).
Proof. by destruct v. Qed.

Lemma zsum_point (c : Z) x n :
  zsum (fun u => if decide (u = x) then c else 0) n =
  if decide (x < n)%nat then c else 0.
Proof.
  induction n as [|n IH]; simpl; [done|]. rewrite IH.
  repeat case_decide; lia.
Qed.

Lemma zsum_zero g n : (∀ k, (k < n)%nat → g k = 0) → zsum g n = 0.
Proof.
  induction n as [|n IH]; intros H; simpl; [done|].
  rewrite IH by (intros; apply H; lia). rewrite H by lia. done.
Qed.

(** The size of a set of numbers below [n], counted by index. *)
Lemma size_zsum (X : gset nat) : ∀ n,
  (∀ v, v ∈ X → (v < n)%nat) →
  Z.of_nat (size X) = zsum (fun v => if decide (v ∈ X) then 1 else 0) n.
Proof.
  intros n. revert X. induction n as [|n IH]; intros X Hbound.
  - simpl. assert (X = ∅) as ->; [|done].
    apply set_eq. intros v. split; [|by intros ?%not_elem_of_empty].
    intros Hv. apply Hbound in Hv. lia.
  - simpl.
    rewrite (zsum_ext _ (fun v => if decide (v ∈ X ∖ {[n]}) then 1 else 0)).
    2: { intros v Hv. repeat case_decide; try done; exfalso.
         - apply H0. apply elem_of_difference. split; [done|].
           rewrite elem_of_singleton. lia.
         - apply elem_of_difference in H0 as [? _]. done. }
    rewrite <- IH.
    2: { intros v [Hv Hn]%elem_of_difference.
         apply Hbound in Hv. rewrite elem_of_singleton in Hn. lia. }
    case_decide as Hin.
    + assert ({[n]} ⊆ X) as Hsub by by apply singleton_subseteq_l.
      pose proof (size_difference X {[n]} Hsub) as Hd.
      pose proof (subseteq_size _ _ Hsub) as Hle.
      rewrite size_singleton in Hd, Hle. lia.
    + assert (X ∖ {[n]} = X) as ->; [|lia].
      apply set_eq. intros v.
      rewrite elem_of_difference, elem_of_singleton.
      split; [tauto|]. intros Hv. split; [done|]. by intros ->.
Qed.

(** A sum over a list without repetitions, by index. *)
Lemma sum_NoDup_zsum (f : nat → nat) (l : list nat) n :
  NoDup l → (∀ u, (n ≤ u)%nat → f u = 0%nat) →
  Z.of_nat (foldr Nat.add 0%nat (map f l)) =
  zsum (fun u => if decide (u ∈ l) then Z.of_nat (f u) else 0) n.
Proof.
  intros Hnd Hzero. induction Hnd as [|x l Hx Hnd IH]; cbn [map foldr].
  - rewrite zsum_zero; [done|]. intros u _.
    by rewrite decide_False by apply not_elem_of_nil.
  - rewrite Nat2Z.inj_add, IH.
    rewrite (zsum_ext (fun u => if decide (u ∈ x :: l) then Z.of_nat (f u) else 0)
               (fun u =>
               (if decide (u = x) then Z.of_nat (f x) else 0)
               + (if decide (u ∈ l) then Z.of_nat (f u) else 0))).
    2: { intros u _. cbv beta. destruct (decide (u = x)) as [->|Hne].
         - rewrite (decide_True (P := x ∈ x :: l))
             by apply list_elem_of_here.
           rewrite (decide_False (P := x ∈ l)) by done. lia.
         - destruct (decide (u ∈ l)) as [Hin|Hin].
           + rewrite (decide_True (P := u ∈ x :: l))
               by by apply list_elem_of_further.
             lia.
           + rewrite (decide_False (P := u ∈ x :: l)); [lia|].
             intros [?|?]%elem_of_cons; done. }
    rewrite zsum_add, zsum_point.
    case_decide; [lia|]. rewrite Hzero by lia. lia.
Qed.

Section Degrees.

Context {Solid : Type}.
Variable self : STEPContactAnalyzer Solid.
Variable cm : np.ndarray.
Variable G : nx.Graph.

Let n := length (parts self).

Hypothesis Hok : contact_matrix_ok n cm.
Hypothesis Hcm : contact_matrix self = Some cm.
Hypothesis HG : get_contact_graph self = Py.Return G.

Lemma neighbours_adjacent u v :
  v ∈ nx.neighbours G u ↔
  (u < n)%nat ∧ (v < n)%nat ∧ adjacent cm u v = 1.
Proof.
  destruct Hok as (Hsq & _).
  destruct (get_contact_graph_edges self cm Hsq Hcm) as (G' & E & Hedges).
  rewrite HG in E. injection E as <-.
  specialize (Hedges u v). unfold nx.has_edge in Hedges.
  rewrite bool_decide_eq_true in Hedges. rewrite Hedges. fold n.
  unfold adjacent. case_decide; [tauto|].
  split; [tauto|]. intros (_ & _ & ?). done.
Qed.

Lemma degree_adjacent u :
  Z.of_nat (nx.degree G u) =
  if decide (u < n)%nat then zsum (adjacent cm u) n else 0.
Proof.
  unfold nx.degree.
  rewrite bool_decide_eq_false_2.
  2: { rewrite neighbours_adjacent, adjacent_diag. by intros (_ & _ & ?). }
  rewrite Nat.add_0_r, (size_zsum _ n).
  2: { intros v Hv. by apply neighbours_adjacent in Hv as (_ & ? & _). }
  case_decide as Hu.
  - apply zsum_ext. intros v Hv. cbv beta.
    case_decide as Hin.
    + apply neighbours_adjacent in Hin as (_ & _ & ->). done.
    + unfold adjacent. case_decide as Hadj; [|done].
      exfalso. apply Hin. apply neighbours_adjacent.
      unfold adjacent. by rewrite decide_True.
  - rewrite zsum_zero; [done|].
    intros v _. rewrite decide_False; [done|].
    rewrite neighbours_adjacent. tauto.
Qed.

(** The degree of a part in the graph is the sum of its matrix row
    less the diagonal entry. *)
Lemma degree_row_sum u row :
  cm !! u = Some row → Z.of_nat (nx.degree G u) = np.sum1 row - 1.
Proof.
  intros Eu. destruct Hok as ([Hlen Hrows] & _).
  pose proof (lookup_lt_Some _ _ _ Eu) as Hu. rewrite Hlen in Hu.
  rewrite degree_adjacent, decide_True by done.
  rewrite (sum1_row n cm u row) by (done || by split).
  rewrite (row_sum_adjacent n) by done. lia.
Qed.

Lemma sum_degrees :
  Z.of_nat (foldr Nat.add 0%nat
              (map (nx.degree G) (elements (dom (nx._adj G)))))
  = 2 * pairs_in_contact cm n.
Proof.
  rewrite (sum_NoDup_zsum _ _ n).
  2: { apply NoDup_elements. }
  2: { intros u Hu. apply Nat2Z.inj. rewrite degree_adjacent.
       by rewrite decide_False by lia. }
  rewrite (zsum_ext _ (fun u => zsum (adjacent cm u) n)).
  2: { intros u Hu. cbv beta.
       rewrite degree_adjacent, (decide_True (P := (u < n)%nat)) by done.
       case_decide as Hin; [done|].
       rewrite zsum_zero; [done|].
       intros v Hv. destruct (decide (adjacent cm u v = 1)) as [Hadj|Hadj].
       - exfalso. apply Hin. apply elem_of_elements, elem_of_dom.
         assert (v ∈ nx.neighbours G u) as Hnb
           by (by apply neighbours_adjacent).
         unfold nx.neighbours in Hnb.
         destruct (nx._adj G !! u); [eauto|].
         by apply not_elem_of_empty in Hnb.
       - unfold adjacent in *. by case_decide. }
  rewrite zsum_symmetric by apply adjacent_sym.
  rewrite (zsum_zero (fun u => adjacent cm u u)).
  2: { intros u _. apply adjacent_diag. }
  unfold pairs_in_contact. lia.
Qed.

Lemma number_of_edges_pairs :
  Z.of_nat (nx.number_of_edges G) = pairs_in_contact cm n.
Proof.
  unfold nx.number_of_edges. rewrite Nat2Z.inj_div, sum_degrees.
  simpl. rewrite Z.mul_comm. by apply Z.div_mul.
Qed.

Lemma has_edge_adjacent u v :
  nx.has_edge G u v = true ↔
  (u < n)%nat ∧ (v < n)%nat ∧ adjacent cm u v = 1.
Proof.
  unfold nx.has_edge. rewrite bool_decide_eq_true.
  apply neighbours_adjacent.
Qed.

(** The comprehension of [print_contact_summary] lists the names of
    the neighbours of part [i], in the order of the parts. *)
Lemma connected_parts_spec (names : list string) i :
  (i < n)%nat → (length names ≤ n)%nat →
  ∃ connected,
    connected_parts cm names i = Py.Return connected ∧
    connected =
      omap (fun j => if nx.has_edge G i j then names !! j else None)
        (seq 0 (length names)) ∧
    Z.of_nat (length connected) = zsum (adjacent cm i) (length names).
Proof.
  intros Hi Hlen. pose proof Hok as (Hsq & H01 & _).
  unfold connected_parts.
  destruct (for_range_invariant
              (fun k connected =>
                 connected =
                   omap (fun j => if nx.has_edge G i j then names !! j else None)
                     (seq 0 k) ∧
                 Z.of_nat (length connected) = zsum (adjacent cm i) k)
              (fun j connected =>
                 x ← np.getitem2 cm i j;
                 if (x =? 1) && negb (i =? j)%nat
                 then name ← Py.getitem names j;
                      Py.Return (connected ++ [name])
                 else Py.Return connected)
              (length names))
    with (d := length names) (lo := 0%nat) (s := @nil string)
    as (connected & E & Hc & Hl); [| lia | done |].
  - intros k s Hk [Hs Hls].
    rewrite (getitem2_entry n) by (done || lia). simpl.
    rewrite Nat.add_1_r, seq_S, omap_app. simpl.
    destruct (names !! k) as [name|] eqn:Ek.
    2: { apply lookup_ge_None in Ek. lia. }
    destruct ((np.entry cm i k =? 1) && negb (i =? k)%nat) eqn:Hcond.
    + apply andb_true_iff in Hcond as [Hx Hne].
      apply Z.eqb_eq in Hx. apply negb_true_iff, Nat.eqb_neq in Hne.
      assert (adjacent cm i k = 1) as Hadj
        by by rewrite (adjacent_entry n).
      assert (nx.has_edge G i k = true) as ->
        by (apply has_edge_adjacent; repeat split; (done || lia)).
      unfold Py.getitem. rewrite Ek. simpl. eexists. split; [done|].
      split; [by rewrite Hs|]. rewrite length_app. simpl. lia.
    + assert (adjacent cm i k = 0) as Hadj.
      { apply andb_false_iff in Hcond as [Hx|Hne].
        - apply Z.eqb_neq in Hx. destruct (decide (i = k)) as [->|Hne].
          + apply adjacent_diag.
          + rewrite (adjacent_entry n) by done.
            destruct (H01 i k); [done|lia].
        - apply negb_false_iff, Nat.eqb_eq in Hne. subst k.
          apply adjacent_diag. }
      assert (nx.has_edge G i k = false) as ->.
      { apply not_true_is_false. rewrite has_edge_adjacent. lia. }
      eexists. split; [done|]. split.
      * by rewrite app_nil_r.
      * lia.
  - exists connected. by rewrite E.
Qed.

(** The degree sequence of [analyze_contact_matrix_properties] lists
    the degrees of the graph. *)
Lemma degree_sequence_degrees :
  map (fun s => s - 1) (np.sum_axis1 cm)
  = map (fun u => Z.of_nat (nx.degree G u)) (seq 0 n).
Proof.
  pose proof Hok as ([Hlen Hrows] & _).
  apply list_eq. intros u. unfold np.sum_axis1.
  rewrite !list_lookup_fmap.
  destruct (cm !! u) as [row|] eqn:Eu; simpl.
  - pose proof (lookup_lt_Some _ _ _ Eu) as Hu. rewrite Hlen in Hu.
    rewrite lookup_seq_lt by done. simpl.
    by rewrite (degree_row_sum u row).
  - apply lookup_ge_None in Eu. rewrite Hlen in Eu.
    by rewrite lookup_seq_ge.
Qed.

Lemma sum_degree_sequence :
  np.sum1 (map (fun u => Z.of_nat (nx.degree G u)) (seq 0 n))
  = 2 * Z.of_nat (nx.number_of_edges G).
Proof.
  rewrite sum1_map_seq, number_of_edges_pairs.
  rewrite (zsum_ext _ (fun u => zsum (adjacent cm u) n)).
  2: { intros u Hu. cbv beta. by rewrite degree_adjacent, decide_True. }
  rewrite zsum_symmetric by apply adjacent_sym.
  rewrite (zsum_zero (fun u => adjacent cm u u)).
  2: { intros u _. apply adjacent_diag. }
  unfold pairs_in_contact. lia.
Qed.

(** The sum of the matrix is the number of parts plus twice the number
    of edges of the graph. *)
Lemma sum_matrix_edges :
  np.sum cm = Z.of_nat n + 2 * Z.of_nat (nx.number_of_edges G).
Proof. by rewrite (sum_contact_matrix n), number_of_edges_pairs. Qed.

End Degrees.

(** ** The summary, the statistics and the graph *)

(** A matrix [compute_contact_matrix] returns is square, 0/1, symmetric
    and has 1 on its diagonal. *)
Lemma computed_matrix_ok {Solid : Type}
    (BRepExtrema : Solid → Solid → Py.result DistShapeShape)
    (self : STEPContactAnalyzer Solid) :
  ∃ m after,
    compute_contact_matrix BRepExtrema self = Py.Return (m, after) ∧
    contact_matrix after = Some m ∧
    parts after = parts self ∧ part_names after = part_names self ∧
    contact_matrix_ok (length (parts self)) m.
Proof.
  destruct (compute_contact_matrix_entries BRepExtrema self)
    as (m & E & Hsq & Hent).
  eexists m, _. split; [exact E|]. do 3 (split; [done|]).
  split; [exact Hsq|]. split; [|split].
  - intros i j.
    destruct (decide (i < length (parts self) ∧ j < length (parts self))%nat)
      as [[Hi Hj]|Hout].
    + rewrite Hent by done. repeat case_match; auto.
    + left. apply (entry_outside _ _ _ _ Hsq). lia.
  - intros i Hi. rewrite Hent by done. by rewrite decide_True.
  - intros i j.
    destruct (decide (i < length (parts self) ∧ j < length (parts self))%nat)
      as [[Hi Hj]|Hout].
    + rewrite !Hent by done.
      rewrite (Nat.min_comm j i), (Nat.max_comm j i).
      destruct (decide (i = j)), (decide (j = i)); done || lia.
    + rewrite !(entry_outside _ _ _ _ Hsq) by lia. done.
Qed.

(** X11: for a square, 0/1, symmetric matrix with unit diagonal and as many
    part names as parts, [print_contact_summary] prints one line per
    part, in order; the number of connections on the line of a part is
    its degree in the graph of [get_contact_graph], and the names that
    follow are those of its neighbours, as many as the number says. *)
Theorem summary_connections_are_degrees {Solid : Type}
    (self : STEPContactAnalyzer Solid) (cm : np.ndarray) :
  contact_matrix self = Some cm →
  contact_matrix_ok (length (parts self)) cm →
  length (part_names self) = length (parts self) →
  ∃ G lines,
    get_contact_graph self = Py.Return G ∧
    print_contact_summary_parts self = Some (Py.Return lines) ∧
    length lines = length (parts self) ∧
    ∀ i name connections connected,
      lines !! i = Some (name, connections, connected) →
      part_names self !! i = Some name ∧
      connections = Z.of_nat (nx.degree G i) ∧
      connections = Z.of_nat (length connected) ∧
      connected =
        omap (fun j => if nx.has_edge G i j then part_names self !! j else None)
          (seq 0 (length (parts self))).
Proof.
  intros Hcm Hok Hlen. pose proof Hok as (Hsq & _).
  destruct (get_contact_graph_edges self cm Hsq Hcm) as (G & EG & _).
  set (line := fun '(i, name) =>
         (name : string, Z.of_nat (nx.degree G i),
          omap (fun j => if nx.has_edge G i j then part_names self !! j else None)
            (seq 0 (length (part_names self))))).
  exists G, (map line (Py.enumerate (part_names self))).
  split; [exact EG|]. split; [|split].
  - unfold print_contact_summary_parts. rewrite Hcm. f_equal.
    apply list_comp_map. intros [i name] Hin.
    apply elem_of_lookup_imap in Hin as (i' & name' & [= -> ->] & Ei).
    pose proof (lookup_lt_Some _ _ _ Ei) as Hi. rewrite Hlen in Hi.
    destruct (cm !! i') as [row|] eqn:Erow.
    2: { apply lookup_ge_None in Erow. destruct Hsq as [Hl _]. lia. }
    unfold Py.getitem at 1. rewrite Erow. simpl.
    destruct (connected_parts_spec self cm G Hok Hcm EG (part_names self) i')
      as (connected & -> & -> & _); [done | lia |].
    simpl. by rewrite (degree_row_sum self cm G Hok Hcm EG i' row).
  - unfold Py.enumerate. by rewrite length_map, length_imap.
  - intros i name connections connected Hline.
    unfold Py.enumerate in Hline.
    rewrite list_lookup_fmap, list_lookup_imap in Hline.
    destruct (part_names self !! i) as [name'|] eqn:Ei; [|done].
    simpl in Hline. injection Hline as -> <- <-.
    pose proof (lookup_lt_Some _ _ _ Ei) as Hi. rewrite Hlen in Hi.
    destruct (connected_parts_spec self cm G Hok Hcm EG (part_names self) i)
      as (connected & _ & -> & Hlength); [done | lia |].
    split; [done|]. split; [done|]. split; [|by rewrite Hlen].
    rewrite Hlength, Hlen.
    by rewrite (degree_adjacent self cm G Hok Hcm EG), decide_True.
Qed.

Lemma summary_connections_are_degrees_witness :
  ∃ G lines,
    get_contact_graph Scenario.chain_computed = Py.Return G ∧
    print_contact_summary_parts Scenario.chain_computed
      = Some (Py.Return lines) ∧
    lines !! 1%nat = Some ("Part_1", 2, ["Part_0"; "Part_2"]) ∧
    nx.degree G 1 = 2%nat.
Proof.
  destruct (summary_connections_are_degrees Scenario.chain_computed
              Scenario.chain_matrix eq_refl) as (G & lines & EG & E & _ & H).
  - destruct (computed_matrix_ok Scenario.distances Scenario.chain)
      as (m & after & Em & _ & _ & _ & Hok).
    vm_compute in Em. injection Em as <- _. exact Hok.
  - reflexivity.
  - exists G, lines. split; [exact EG|]. split; [exact E|].
    vm_compute in E. injection E as <-.
    vm_compute in EG. injection EG as <-.
    split; reflexivity.
Defined.

(** ** When the summary fails *)

Lemma list_comp_returns {A B} (f : A → Py.result B) (xs : list A) :
  (∀ x, x ∈ xs → ∃ y, f x = Py.Return y) →
  ∃ ys, Py.list_comp f xs = Py.Return ys ∧ length ys = length xs.
Proof.
  induction xs as [|x xs IH]; intros H; simpl; [by exists []|].
  destruct (H x) as (y & ->); [apply list_elem_of_here|]. simpl.
  destruct IH as (ys & -> & Hlen);
    [intros; apply H; by apply list_elem_of_further|].
  simpl. exists (y :: ys). split; [done|]. simpl. by rewrite Hlen.
Qed.

Lemma connected_parts_returns n (cm : np.ndarray) (names : list string) i :
  np.square n cm → (i < n)%nat → (length names ≤ n)%nat →
  ∃ connected, connected_parts cm names i = Py.Return connected.
Proof.
  intros Hsq Hi Hlen. unfold connected_parts.
  destruct (for_range_invariant
              (fun _ (_ : list string) => True)
              (fun j connected =>
                 x ← np.getitem2 cm i j;
                 if (x =? 1) && negb (i =? j)%nat
                 then name ← Py.getitem names j;
                      Py.Return (connected ++ [name])
                 else Py.Return connected)
              (length names))
    with (d := length names) (lo := 0%nat) (s := @nil string)
    as (connected & E & _); [| lia | done | by exists connected].
  intros k s Hk _. rewrite (getitem2_entry n) by (done || lia). simpl.
  destruct (names !! k) as [name|] eqn:Ek.
  2: { apply lookup_ge_None in Ek. lia. }
  unfold Py.getitem. rewrite Ek.
  destruct ((np.entry cm i k =? 1) && negb (i =? k)%nat); simpl; eauto.
Qed.

Lemma connected_parts_raises n (cm : np.ndarray) (names : list string) i :
  np.square n cm → (i < n)%nat → (n < length names)%nat →
  connected_parts cm names i = Py.Raise Py.IndexError.
Proof.
  intros Hsq Hi Hlen. unfold connected_parts.
  apply (for_range_raises _ _ n) with (d := n); [done | | lia |].
  - intros s. destruct Hsq as [Hl Hrows].
    unfold np.getitem2, Py.getitem.
    destruct (cm !! i) as [row|] eqn:Erow.
    2: { apply lookup_ge_None in Erow. lia. }
    simpl. rewrite (proj2 (lookup_ge_None row n)); [done|].
    rewrite (Hrows _ _ Erow). lia.
  - intros j s Hj. rewrite (getitem2_entry n) by (done || lia). simpl.
    destruct (names !! j) as [name|] eqn:Ej.
    2: { apply lookup_ge_None in Ej. lia. }
    unfold Py.getitem. rewrite Ej.
    destruct ((np.entry cm i j =? 1) && negb (i =? j)%nat); simpl; eauto.
Qed.

(** X12: on a square matrix the part lines of [print_contact_summary] never
    look at the list of parts: they are printed, one per part name,
    when there are at most as many names as rows, and the call raises
    [IndexError] when there are more. *)
Theorem summary_raises_iff_more_names_than_rows {Solid : Type}
    (self : STEPContactAnalyzer Solid) (cm : np.ndarray) :
  contact_matrix self = Some cm →
  np.square (length cm) cm →
  ((length cm < length (part_names self))%nat →
   print_contact_summary_parts self = Some (Py.Raise Py.IndexError)) ∧
  ((length (part_names self) ≤ length cm)%nat →
   ∃ lines,
     print_contact_summary_parts self = Some (Py.Return lines) ∧
     map (fun line : string * Z * list string => line.1.1) lines = part_names self).
Proof.
  intros Hcm Hsq. unfold print_contact_summary_parts. rewrite Hcm. split.
  - intros Hlen. f_equal.
    destruct (part_names self) as [|name names] eqn:Enames;
      [simpl in Hlen; lia|].
    unfold Py.enumerate. simpl.
    destruct (cm !! 0%nat) as [row|] eqn:Erow.
    + unfold Py.getitem at 1. rewrite Erow. simpl.
      rewrite (connected_parts_raises (length cm)); [done | done | | done].
      apply lookup_lt_Some in Erow. lia.
    + unfold Py.getitem at 1. by rewrite Erow.
  - intros Hlen.
    assert (∀ names off,
              (off + length names ≤ length cm)%nat →
              ∃ lines : list (string * Z * list string),
                Py.list_comp
                  (fun '(i, name) =>
                     row ← Py.getitem cm i;
                     connected ← connected_parts cm (part_names self) i;
                     Py.Return (name, np.sum1 row - 1, connected))
                  (imap (fun k name => ((off + k)%nat, name)) names)
                = Py.Return lines ∧
                map (fun line : string * Z * list string => line.1.1) lines = names) as Hloop.
    { induction names as [|name names IH]; intros off Hoff; simpl.
      - by exists [].
      - simpl in Hoff. rewrite Nat.add_0_r.
        destruct (cm !! off) as [row|] eqn:Erow.
        2: { apply lookup_ge_None in Erow. lia. }
        unfold Py.getitem at 1. rewrite Erow. simpl.
        destruct (connected_parts_returns (length cm) cm (part_names self) off)
          as (connected & ->); [done | lia | done |]. simpl.
        destruct (IH (S off)) as (lines & E & Hnames); [lia|].
        rewrite (imap_ext _ (fun k name => ((S off + k)%nat, name)))
          by (intros; unfold compose; f_equal; lia).
        rewrite E. simpl. eexists. split; [done|]. simpl. by rewrite Hnames. }
    destruct (Hloop (part_names self) 0%nat) as (lines & E & Hnames); [lia|].
    exists lines. split; [|done]. f_equal. exact E.
Qed.

Lemma summary_raises_iff_more_names_than_rows_witness :
  print_contact_summary_parts Scenario.four_names
  = Some (Py.Raise Py.IndexError) ∧
  ∃ lines,
    print_contact_summary_parts Scenario.one_name = Some (Py.Return lines) ∧
    map (fun line : string * Z * list string => line.1.1) lines = ["Base"].
Proof.
  split.
  - apply (summary_raises_iff_more_names_than_rows Scenario.four_names
             Scenario.chain_matrix eq_refl); [|simpl; lia].
    split; [reflexivity|]. intros i row Hi.
    destruct i as [|[|[|i]]]; simpl in Hi; [| | |done];
      injection Hi as <-; reflexivity.
  - apply (summary_raises_iff_more_names_than_rows Scenario.one_name
             Scenario.chain_matrix eq_refl); [|simpl; lia].
    split; [reflexivity|]. intros i row Hi.
    destruct i as [|[|[|i]]]; simpl in Hi; [| | |done];
      injection Hi as <-; reflexivity.
Defined.

(** X13: for a square, 0/1, symmetric matrix with unit diagonal the sum of
    all entries is the number of parts plus twice the number of edges
    of the contact graph.  So the total that
    [analyze_contact_matrix_properties] and [print_contact_summary]
    report is the number of edges plus half the number of parts,
    rounded down, and with two or more parts the density is positive
    even when nothing touches. *)
Theorem total_contacts_is_edges_plus_half_the_parts {Solid : Type}
    (self : STEPContactAnalyzer Solid) (cm : np.ndarray) :
  contact_matrix self = Some cm →
  contact_matrix_ok (length (parts self)) cm →
  parts self ≠ [] →
  ∃ G props,
    get_contact_graph self = Py.Return G ∧
    analyze_contact_matrix_properties cm = Py.Return props ∧
    np.sum cm
    = Z.of_nat (length (parts self)) + 2 * Z.of_nat (nx.number_of_edges G) ∧
    n_parts props = Z.of_nat (length (parts self)) ∧
    total_contacts props
    = Z.of_nat (nx.number_of_edges G)
      + Z.of_nat (length (parts self)) `div` 2 ∧
    (∃ density,
       print_contact_summary_figures self
       = Some (total_contacts props, density)) ∧
    ((2 ≤ length (parts self))%nat → (0 < contact_density props)%Q).
Proof.
  intros Hcm Hok Hne. pose proof Hok as (Hsq & _).
  pose proof Hsq as [Hlen Hrows].
  destruct (get_contact_graph_edges self cm Hsq Hcm) as (G & EG & _).
  pose proof (sum_matrix_edges self cm G Hok Hcm EG) as Hsum.
  set (n := length (parts self)) in *.
  set (E := nx.number_of_edges G) in *.
  assert (np.sum cm `div` 2 = Z.of_nat E + Z.of_nat n `div` 2) as Htotal.
  { rewrite Hsum, Z.add_comm, Z.mul_comm. rewrite Z.div_add_l by done. lia. }
  assert (0 < n)%nat as Hpos by (subst n; destruct (parts self); simpl; [done|lia]).
  unfold analyze_contact_matrix_properties.
  set (ds := map (fun s => s - 1) (np.sum_axis1 cm)).
  assert (ds ≠ []) as Hds.
  { intros Hnil. apply (f_equal length) in Hnil. subst ds.
    unfold np.sum_axis1 in Hnil. rewrite !length_map in Hnil.
    simpl in Hnil. lia. }
  destruct (np_max_spec ds Hds) as (mx & -> & _).
  destruct (np_min_spec ds Hds) as (mn & -> & _). simpl.
  exists G. eexists. split; [exact EG|]. split; [reflexivity|]. simpl.
  unfold np.shape0. rewrite Hlen.
  split; [exact Hsum|]. split; [done|]. split; [exact Htotal|]. split.
  - unfold print_contact_summary_figures. rewrite Hcm. eauto.
  - intros Htwo. rewrite Htotal.
    assert (0 < (Z.of_nat n * (Z.of_nat n - 1)) `div` 2) as Hmax.
    { apply Z.div_str_pos. nia. }
    rewrite (proj2 (Z.ltb_lt _ _) Hmax).
    assert (0 < Z.of_nat E + Z.of_nat n `div` 2) as Ht.
    { assert (0 < Z.of_nat n `div` 2) by (apply Z.div_str_pos; lia). lia. }
    apply Qlt_shift_div_l.
    + unfold Qlt. simpl. lia.
    + unfold Qlt. simpl. lia.
Qed.

Lemma total_contacts_is_edges_plus_half_the_parts_witness :
  ∃ G props,
    get_contact_graph Scenario.chain_computed = Py.Return G ∧
    analyze_contact_matrix_properties Scenario.chain_matrix
      = Py.Return props ∧
    nx.number_of_edges G = 2%nat ∧ total_contacts props = 3.
Proof.
  destruct (total_contacts_is_edges_plus_half_the_parts
              Scenario.chain_computed Scenario.chain_matrix eq_refl)
    as (G & props & EG & E & _ & _ & Ht & _).
  - destruct (computed_matrix_ok Scenario.distances Scenario.chain)
      as (m & after & Em & _ & _ & _ & Hok).
    vm_compute in Em. injection Em as <- _. exact Hok.
  - discriminate.
  - exists G, props. split; [exact EG|]. split; [exact E|].
    vm_compute in EG. injection EG as <-.
    split; [reflexivity|]. rewrite Ht. reflexivity.
Defined.

(** X14: for such a matrix the per-part figures of
    [analyze_contact_matrix_properties] are those of the contact graph:
    [max_connections] and [min_connections] are the largest and the
    smallest degree, [isolated_parts] counts the parts of degree 0, and
    [avg_connections] is twice the number of edges over the number of
    parts. *)
Theorem analysis_connections_are_degrees {Solid : Type}
    (self : STEPContactAnalyzer Solid) (cm : np.ndarray) :
  contact_matrix self = Some cm →
  contact_matrix_ok (length (parts self)) cm →
  parts self ≠ [] →
  ∃ G props,
    get_contact_graph self = Py.Return G ∧
    analyze_contact_matrix_properties cm = Py.Return props ∧
    (∀ u, (u < length (parts self))%nat →
          min_connections props ≤ Z.of_nat (nx.degree G u)
                                ≤ max_connections props) ∧
    (∃ u, (u < length (parts self))%nat ∧
          Z.of_nat (nx.degree G u) = max_connections props) ∧
    (∃ u, (u < length (parts self))%nat ∧
          Z.of_nat (nx.degree G u) = min_connections props) ∧
    isolated_parts props
    = Z.of_nat (length (filter (fun u => nx.degree G u = 0%nat)
                          (seq 0 (length (parts self))))) ∧
    avg_connections props
    = Some (2 * Z.of_nat (nx.number_of_edges G)
            # Pos.of_nat (length (parts self))).
Proof.
  intros Hcm Hok Hne. pose proof Hok as (Hsq & _).
  destruct (get_contact_graph_edges self cm Hsq Hcm) as (G & EG & _).
  pose proof (degree_sequence_degrees self cm G Hok Hcm EG) as Hds.
  pose proof (sum_degree_sequence self cm G Hok Hcm EG) as Hsum.
  set (n := length (parts self)) in *.
  assert (0 < n)%nat as Hpos by (subst n; destruct (parts self); simpl; [done|lia]).
  unfold analyze_contact_matrix_properties. rewrite Hds.
  set (ds := map (fun u => Z.of_nat (nx.degree G u)) (seq 0 n)) in *.
  assert (∀ d, d ∈ ds ↔ ∃ u, (u < n)%nat ∧ Z.of_nat (nx.degree G u) = d)
    as Hin.
  { intros d. subst ds. rewrite list_elem_of_fmap. split.
    - intros (u & -> & Hu%elem_of_seq). exists u. split; [lia|done].
    - intros (u & Hu & <-). exists u. split; [done|].
      apply elem_of_seq. lia. }
  assert (ds ≠ []) as Hne'.
  { intros Hnil. apply (f_equal length) in Hnil. subst ds.
    rewrite length_map, length_seq in Hnil. simpl in Hnil. lia. }
  destruct (np_max_spec ds Hne') as (mx & -> & Hmx & Hmax).
  destruct (np_min_spec ds Hne') as (mn & -> & Hmn & Hmin). simpl.
  exists G. eexists. split; [exact EG|]. split; [reflexivity|]. simpl.
  split; [|split; [|split; [|split]]].
  - intros u Hu.
    assert (Z.of_nat (nx.degree G u) ∈ ds) by (apply Hin; eauto).
    split; [by apply Hmin | by apply Hmax].
  - by apply Hin.
  - by apply Hin.
  - f_equal. subst ds. rewrite length_filter_map_seq.
    f_equal. apply list_filter_iff. intros u. lia.
  - rewrite np_mean_spec, Hsum by done. subst ds.
    by rewrite length_map, length_seq.
Qed.

Lemma analysis_connections_are_degrees_witness :
  ∃ G props,
    get_contact_graph Scenario.chain_computed = Py.Return G ∧
    analyze_contact_matrix_properties Scenario.chain_matrix
      = Py.Return props ∧
    nx.degree G 1 = 2%nat ∧ max_connections props = 2 ∧
    avg_connections props = Some (4 # 3).
Proof.
  destruct (analysis_connections_are_degrees
              Scenario.chain_computed Scenario.chain_matrix eq_refl)
    as (G & props & EG & E & _ & _ & _ & _ & Havg).
  - destruct (computed_matrix_ok Scenario.distances Scenario.chain)
      as (m & after & Em & _ & _ & _ & Hok).
    vm_compute in Em. injection Em as <- _. exact Hok.
  - discriminate.
  - exists G, props. split; [exact EG|]. split; [exact E|].
    vm_compute in EG. injection EG as <-.
    vm_compute in E. injection E as <-.
    repeat split; reflexivity.
Defined.

(** ** Loading, computing and drawing, as [main.py] chains them *)

(** X15: once [load_step_file] has returned [True], whatever the analyzer
    held before, [compute_contact_matrix] and then [get_contact_graph]
    return, and the nodes of the graph are exactly the indices of the
    solids of the file, node [k] carrying the name [Part_k] and nothing
    else. *)
Theorem graph_after_successful_load {Solid : Type}
    (STEPControl : string → STEPControl_Reader Solid)
    (BRepExtrema : Solid → Solid → Py.result DistShapeShape)
    (self loaded : STEPContactAnalyzer Solid) (file_path : string) :
  load_step_file STEPControl self file_path = (true, loaded) →
  ∃ solids m after G,
    OneShape (STEPControl file_path) = Py.Return solids ∧
    parts loaded = solids ∧
    compute_contact_matrix BRepExtrema loaded = Py.Return (m, after) ∧
    get_contact_graph after = Py.Return G ∧
    ∀ k, nx._node G !! k =
         if decide (k < length solids)%nat
         then Some {["name" := "Part_" +:+ pretty k]}
         else None.
Proof.
  unfold load_step_file, load_step_file_body.
  destruct (ReadFile (STEPControl file_path)) as [status|e]; [|done].
  destruct (negb (status =? 1)); [done|].
  destruct (OneShape (STEPControl file_path)) as [solids|e]; [|done].
  rewrite explore_spec. simpl.
  destruct (Explorer_raises (STEPControl file_path)); [done|].
  intros [= <-].
  destruct (computed_matrix_ok BRepExtrema
              {| tolerance := tolerance self; parts := solids;
                 contact_matrix := contact_matrix self;
                 part_names :=
                   imap (fun k _ => "Part_" +:+ pretty (0 + k)%nat) solids |})
    as (m & after & E & Hcm & Hparts & Hnames & Hok).
  simpl in *. pose proof Hok as (Hsq & _). rewrite <- Hparts in Hsq.
  destruct (get_contact_graph_edges after m Hsq Hcm) as (G & EG & Hedges).
  exists solids, m, after, G. do 4 (split; [done|]).
  intros k. pose proof (get_contact_graph_nodes_ok after G EG k) as Hk.
  rewrite Hnames, list_lookup_imap in Hk.
  destruct (solids !! k) as [solid|] eqn:Ek; simpl in Hk.
  - apply lookup_lt_Some in Ek. by rewrite decide_True.
  - apply lookup_ge_None in Ek. rewrite decide_False by lia.
    destruct Hk as [[_ [v Hv]]|[Hnone _]]; [|done].
    assert (nx.has_edge G k v = true) as Hkv
      by by apply bool_decide_eq_true.
    apply Hedges in Hkv. rewrite Hparts in Hkv. lia.
Qed.

Lemma graph_after_successful_load_witness :
  ∃ solids m after G,
    OneShape (Scenario.two_solids "knife.step") = Py.Return solids ∧
    parts (snd (load_step_file Scenario.two_solids (init (1 # 1000))
                  "knife.step")) = solids ∧
    compute_contact_matrix Scenario.distances
      (snd (load_step_file Scenario.two_solids (init (1 # 1000))
              "knife.step")) = Py.Return (m, after) ∧
    get_contact_graph after = Py.Return G ∧
    ∀ k, nx._node G !! k =
         if decide (k < length solids)%nat
         then Some {["name" := "Part_" +:+ pretty k]}
         else None.
Proof.
  apply (graph_after_successful_load Scenario.two_solids Scenario.distances
           (init (1 # 1000))).
  reflexivity.
Defined.
